(** * VideoGenerator: frame renderer, colour helpers and capture session

    A shallow embedding of [src/components/VideoGenerator.tsx].

    Modelling conventions.
    - A JavaScript [number] is an exact rational ([Q]).  [Math.pow (x, 3)]
      is [x * x * x], [Math.floor] is [Qfloor], [Math.round] rounds half
      up.  Rational division by zero is [0] where JavaScript gives [NaN]
      or [Infinity]; the value of [progress] is therefore meaningful for
      a non-zero duration only, and the statements about that value
      assume a positive one.
      The code computes on binary64 doubles: a product or a quotient
      is rounded before it is floored or compared, so that a floor can
      differ by one from the floor of the exact value.  Statements about
      such values are made with that allowance (a bound instead of an
      equation) wherever the two could differ.
    - Colour channels produced by [parseInt] are integers ([Z]).
    - A JavaScript string is a [string]: one character per code unit.
    - [Math.sin] is a parameter of the renderer.
    - The 2D context is an explicit state: the drawing attributes, the
      save/restore stack, the current path, and the surface, which is the
      ordered list of primitives painted so far together with the
      attributes each one was painted with.  Rasterisation and the
      parsing of colour strings belong to the platform: a style is stored
      as it is assigned.
    - The component's [useState] cells and [useRef] boxes form one record;
      a handler is a function from that record, and from what the
      platform answers, to the new record, the platform calls made, and
      the exception that escapes, if any. *)

From Stdlib Require Import ZArith QArith Qround Qminmax Qabs.
From Stdlib Require Import List String Ascii Bool Lia Lqa.
Import ListNotations.

Local Open Scope Q_scope.

(** ** Numeric helpers *)

(** [function clamp(n, min, max) { return Math.max(min, Math.min(max, n)); }] *)
Definition clamp (n min max : Q) : Q := Qmax min (Qmin max n).

(** [Math.floor], returned as a number. *)
Definition Math_floor (x : Q) : Q := inject_Z (Qfloor x).

(** [Math.round]: the integer nearest to [x], ties towards +infinity. *)
Definition Math_round (x : Q) : Z := Qfloor (x + (1 # 2)).

(** [Math.pow(x, 3)]. *)
Definition pow3 (x : Q) : Q := x * x * x.

(** [Math.pow(x, 2)]. *)
Definition pow2 (x : Q) : Q := x * x.

(** ** Easing utilities *)

(** [function easeOutCubic(t) { return 1 - Math.pow(1 - t, 3); }] *)
Definition easeOutCubic (t : Q) : Q := 1 - pow3 (1 - t).

(** [function easeInCubic(t) { return t * t * t; }] *)
Definition easeInCubic (t : Q) : Q := t * t * t.

(** [t < 0.5 ? 4 * t * t * t : 1 - Math.pow(-2 * t + 2, 3) / 2] *)
Definition easeInOutCubic (t : Q) : Q :=
  if Qlt_le_dec t 0.5 then 4 * t * t * t
  else 1 - pow3 (-(2) * t + 2) / 2.

(** [const c1 = 1.70158; const c3 = c1 + 1;
     return 1 + c3 * Math.pow(t - 1, 3) + c1 * Math.pow(t - 1, 2);] *)
Definition easeOutBack (t : Q) : Q :=
  let c1 := 1.70158 in
  let c3 := c1 + 1 in
  1 + c3 * pow3 (t - 1) + c1 * pow2 (t - 1).

(** ** Colour utilities *)

Module Color.

Local Open Scope char_scope.

(** The character class [[a-f\d]] under the [i] flag. *)
Definition is_hex (c : ascii) : bool :=
  let n := nat_of_ascii c in
  ((48 <=? n) && (n <=? 57) || (97 <=? n) && (n <=? 102)
   || (65 <=? n) && (n <=? 70))%nat%bool.

(** Value of one hexadecimal digit, as [parseInt(_, 16)] reads it. *)
Definition hex_val (c : ascii) : Z :=
  let n := Z.of_nat (nat_of_ascii c) in
  (if (48 <=? n) && (n <=? 57) then n - 48
   else if (97 <=? n) && (n <=? 102) then n - 87
   else if (65 <=? n) && (n <=? 70) then n - 55
   else 0)%Z.

(** [parseInt(m[k], 16)] on a captured group of two hex digits. *)
Definition parseInt16 (c1 c2 : ascii) : Z := (16 * hex_val c1 + hex_val c2)%Z.

Record rgb := mkRgb { r : Z; g : Z; b : Z }.

(** The three capture groups of
    [/^#?([a-f\d]{2})([a-f\d]{2})([a-f\d]{2})$/i] applied to a string from
    which the optional leading [#] has been consumed. *)
Definition exec_groups (s : string) : option (list ascii) :=
  match s with
  | String c1 (String c2 (String c3 (String c4 (String c5
      (String c6 EmptyString))))) =>
      if forallb is_hex [c1; c2; c3; c4; c5; c6]
      then Some [c1; c2; c3; c4; c5; c6] else None
  | _ => None
  end.

(** [/^#?([a-f\d]{2})([a-f\d]{2})([a-f\d]{2})$/i.exec(hex)]: the six
    captured characters, or [None] for a [null] match.  When the string
    starts with [#], only the attempt in which [#?] consumes it can
    succeed, [#] being no hex digit. *)
Definition regex_exec (hex : string) : option (list ascii) :=
  match hex with
  | String c rest =>
      if Ascii.eqb c "#" then exec_groups rest else exec_groups hex
  | EmptyString => exec_groups hex
  end.

(** Strings of the form [#RRGGBB], in either case. *)
Definition is_hash_hex (s : string) : bool :=
  match list_ascii_of_string s with
  | c :: cs =>
      Ascii.eqb c "#" && (List.length cs =? 6)%nat && forallb is_hex cs
  | [] => false
  end.

(** Strings of the form [RRGGBB], in either case. *)
Definition is_bare_hex (s : string) : bool :=
  let cs := list_ascii_of_string s in
  (List.length cs =? 6)%nat && forallb is_hex cs.

(** [function hexToRgb(hex)] *)
Definition hexToRgb (hex : string) : rgb :=
  match regex_exec hex with
  | Some [c1; c2; c3; c4; c5; c6] =>
      mkRgb (parseInt16 c1 c2) (parseInt16 c3 c4) (parseInt16 c5 c6)
  | _ => mkRgb 0 0 0
  end.

(** One lowercase digit of [Number.prototype.toString(16)]. *)
Definition hex_digit (d : Z) : ascii :=
  (if d <? 10 then ascii_of_nat (Z.to_nat (48 + d))
   else ascii_of_nat (Z.to_nat (87 + d)))%Z.

(** Digits of a non-negative integer in radix 16, most significant first. *)
Fixpoint hex_digits (fuel : nat) (n : Z) (acc : string) : string :=
  let acc' := String (hex_digit (n mod 16)) acc in
  match fuel with
  | O => acc'
  | S fuel' =>
      if (n / 16 =? 0)%Z then acc' else hex_digits fuel' (n / 16) acc'
  end.

(** [n.toString(16)] for an integer [n]. *)
Definition toString16 (n : Z) : string :=
  let m := Z.abs n in
  let ds := hex_digits (Z.to_nat (Z.log2 m)) m EmptyString in
  if (n <? 0)%Z then String "-" ds else ds.

(** [s.padStart(2, '0')] *)
Definition padStart2 (s : string) : string :=
  match s with
  | EmptyString => String "0" (String "0" EmptyString)
  | String c EmptyString => String "0" (String c EmptyString)
  | _ => s
  end.

(** [function toHex(n) { return n.toString(16).padStart(2, '0'); }] *)
Definition toHex (n : Z) : string := padStart2 (toString16 n).

(** [function rgbToHex(r, g, b)] *)
Definition rgbToHex (r g b : Z) : string :=
  String "#" (toHex r ++ toHex g ++ toHex b)%string.

(** [clamp] on integer channel values. *)
Definition clampZ (n min max : Z) : Z := Z.max min (Z.min max n).

(** [function shade(hex, percent)] *)
Definition shade (hex : string) (percent : Q) : string :=
  let '(mkRgb r g b) := hexToRgb hex in
  let t := (100 + percent) / 100 in
  let rr := clampZ (Math_round (inject_Z r * t)) 0 255 in
  let gg := clampZ (Math_round (inject_Z g * t)) 0 255 in
  let bb := clampZ (Math_round (inject_Z b * t)) 0 255 in
  rgbToHex rr gg bb.

(** The characters [[a-f\d]] matches under the [i] flag. *)
Definition hex_chars : list ascii :=
  ["0"; "1"; "2"; "3"; "4"; "5"; "6"; "7"; "8"; "9";
   "a"; "b"; "c"; "d"; "e"; "f"; "A"; "B"; "C"; "D"; "E"; "F"].

(** ASCII lower-casing, the case normalisation of a colour string. *)
Definition lower (c : ascii) : ascii :=
  let n := nat_of_ascii c in
  if ((65 <=? n) && (n <=? 90))%nat then ascii_of_nat (n + 32) else c.

Fixpoint lowercase (s : string) : string :=
  match s with
  | EmptyString => EmptyString
  | String c s' => String (lower c) (lowercase s')
  end.

End Color.

(** ** Animation parameter model *)

Inductive AnimationType := fade | slide | zoom | typewriter.

Record Settings := mkSettings {
  width : Q;
  height : Q;
  fps : Q;
  durationSeconds : Q;
  background : string;
  textColor : string;
  text : string;
  fontSize : Q;
  animation : AnimationType
}.

Definition newline : string := String (ascii_of_nat 10) EmptyString.

Definition DEFAULTS : Settings :=
  {| width := 720;
     height := 1280;
     fps := 60;
     durationSeconds := 6;
     background := "#0c1326";
     textColor := "#e7ecff";
     text := "Hello, world!" ++ newline
             ++ "This video was generated entirely in your browser.";
     fontSize := 48;
     animation := fade |}.

(** ** String helpers of the renderer *)

(** [s.split(/\r?\n/)]: a line feed, optionally preceded by a carriage
    return, separates two pieces; [acc] holds the current piece reversed. *)
Fixpoint split_lines_acc (s : string) (acc : list ascii) : list string :=
  match s with
  | EmptyString => [string_of_list_ascii (rev acc)]
  | String c rest =>
      if Ascii.eqb c (ascii_of_nat 10) then
        string_of_list_ascii (rev acc) :: split_lines_acc rest []
      else if Ascii.eqb c (ascii_of_nat 13) then
        match rest with
        | String c' rest' =>
            if Ascii.eqb c' (ascii_of_nat 10) then
              string_of_list_ascii (rev acc) :: split_lines_acc rest' []
            else split_lines_acc rest (c :: acc)
        | EmptyString => split_lines_acc rest (c :: acc)
        end
      else split_lines_acc rest (c :: acc)
  end.

Definition split_lines (s : string) : list string := split_lines_acc s [].

(** [s.length] as a number. *)
Definition strlen (s : string) : Q := inject_Z (Z.of_nat (String.length s)).

(** [s.slice(0, n)] for an integral [n >= 0]. *)
Definition slice0 (s : string) (n : Z) : string :=
  substring 0 (Z.to_nat n) s.

(** ** Quantities the renderer derives from time *)

(** [clamp(tMs / (settings.durationSeconds * 1000), 0, 1)] *)
Definition progress (s : Settings) (tMs : Q) : Q :=
  clamp (tMs / (durationSeconds s * 1000)) 0 1.

(** The [fade] case: [alpha = inP * outP]. *)
Definition fadeAlpha (progress : Q) : Q :=
  let inP := easeOutCubic (clamp (progress * 2) 0 1) in
  let outP := 1 - easeInCubic (clamp ((progress - 0.5) * 2) 0 1) in
  inP * outP.

(** The [typewriter] case:
    [charsToShow = Math.floor(progress * (totalChars + 6))]. *)
Definition charsToShow (text : string) (progress : Q) : Z :=
  let totalChars := strlen text in
  Qfloor (progress * (totalChars + 6)).

(** [visible = text.slice(0, Math.max(0, charsToShow))] *)
Definition visible (text : string) (progress : Q) : string :=
  slice0 text (Z.max 0 (charsToShow text progress)).

(** ** The 2D drawing context *)

Module Canvas.

(** A value assignable to [fillStyle] / [strokeStyle].  The template
    string [`rgba(${r}, ${g}, ${b}, ${a})`] is kept as its four
    interpolated values; a gradient object as its line and colour stops. *)
Inductive style :=
| CssColor (c : string)
| CssRgba (r g b : Z) (a : Q)
| LinearGradient (x0 y0 x1 y1 : Q) (stops : list (Q * string)).

(** [`600 ${fontSize}px ui-sans-serif, system-ui, ...`], kept as the
    interpolated size. *)
Inductive fontspec :=
| DefaultFont
| Font600 (px : Q).

(** Current transformation: a scale and a translation (the renderer never
    rotates). *)
Record xform := mkXform { sx : Q; sy : Q; tx : Q; ty : Q }.

Definition identity : xform := mkXform 1 1 0 0.

(** The part of the context that [save()] pushes and [restore()] pops. *)
Record dstate := mkDstate {
  fillStyle : style;
  strokeStyle : style;
  lineWidth : Q;
  globalAlpha : Q;
  font : fontspec;
  textAlign : string;
  textBaseline : string;
  transform : xform
}.

Inductive seg :=
| MoveTo (x y : Q)
| LineTo (x y : Q).

(** A painted primitive, with the attributes in force when it was painted. *)
Inductive prim :=
| PClearRect (x y w h : Q) (tr : xform)
| PFillRect (x y w h : Q) (st : style) (alpha : Q) (tr : xform)
| PStroke (p : list seg) (st : style) (lw : Q) (alpha : Q) (tr : xform)
| PFillText (s : string) (x y : Q) (st : style) (f : fontspec)
            (align baseline : string) (alpha : Q) (tr : xform).

Record ctx := mkCtx {
  cur : dstate;
  stack : list dstate;
  path : list seg;
  surface : list prim
}.

(** A command on the context. *)
Definition cmd := ctx -> ctx.

Definition seq (a b : cmd) : cmd := fun c => b (a c).

Definition skip : cmd := fun c => c.

(** [for (const x of xs) body(x)] *)
Definition for_each {A} (xs : list A) (body : A -> cmd) : cmd :=
  fun c => fold_left (fun c' x => body x c') xs c.

Definition with_cur (f : dstate -> dstate) : cmd :=
  fun c => mkCtx (f (cur c)) (stack c) (path c) (surface c).

Definition paint (p : dstate -> prim) : cmd :=
  fun c => mkCtx (cur c) (stack c) (path c) (surface c ++ [p (cur c)]).

Definition set_fillStyle (v : style) : cmd :=
  with_cur (fun d => mkDstate v (strokeStyle d) (lineWidth d) (globalAlpha d)
                       (font d) (textAlign d) (textBaseline d) (transform d)).

Definition set_strokeStyle (v : style) : cmd :=
  with_cur (fun d => mkDstate (fillStyle d) v (lineWidth d) (globalAlpha d)
                       (font d) (textAlign d) (textBaseline d) (transform d)).

(** The setter ignores values that are not strictly positive. *)
Definition set_lineWidth (v : Q) : cmd :=
  with_cur (fun d => mkDstate (fillStyle d) (strokeStyle d)
                       (if Qlt_le_dec 0 v then v else lineWidth d)
                       (globalAlpha d)
                       (font d) (textAlign d) (textBaseline d) (transform d)).

(** The setter ignores values outside [0, 1]. *)
Definition valid_alpha (v : Q) : bool := Qle_bool 0 v && Qle_bool v 1.

Definition set_globalAlpha (v : Q) : cmd :=
  with_cur (fun d => mkDstate (fillStyle d) (strokeStyle d) (lineWidth d)
                       (if valid_alpha v then v else globalAlpha d)
                       (font d) (textAlign d) (textBaseline d) (transform d)).

Definition set_font (v : fontspec) : cmd :=
  with_cur (fun d => mkDstate (fillStyle d) (strokeStyle d) (lineWidth d)
                       (globalAlpha d) v (textAlign d) (textBaseline d)
                       (transform d)).

Definition set_textAlign (v : string) : cmd :=
  with_cur (fun d => mkDstate (fillStyle d) (strokeStyle d) (lineWidth d)
                       (globalAlpha d) (font d) v (textBaseline d)
                       (transform d)).

Definition set_textBaseline (v : string) : cmd :=
  with_cur (fun d => mkDstate (fillStyle d) (strokeStyle d) (lineWidth d)
                       (globalAlpha d) (font d) (textAlign d) v
                       (transform d)).

Definition set_transform (v : xform) : cmd :=
  with_cur (fun d => mkDstate (fillStyle d) (strokeStyle d) (lineWidth d)
                       (globalAlpha d) (font d) (textAlign d)
                       (textBaseline d) v).

(** [ctx.translate(x, y)] *)
Definition translate (x y : Q) : cmd :=
  fun c =>
    let t := transform (cur c) in
    set_transform (mkXform (sx t) (sy t) (tx t + sx t * x) (ty t + sy t * y)) c.

(** [ctx.scale(a, b)] *)
Definition scale (a b : Q) : cmd :=
  fun c =>
    let t := transform (cur c) in
    set_transform (mkXform (sx t * a) (sy t * b) (tx t) (ty t)) c.

(** [ctx.save()] *)
Definition save : cmd :=
  fun c => mkCtx (cur c) (cur c :: stack c) (path c) (surface c).

(** [ctx.restore()]: does nothing on an empty stack. *)
Definition restore : cmd :=
  fun c =>
    match stack c with
    | [] => c
    | d :: st => mkCtx d st (path c) (surface c)
    end.

(** [ctx.beginPath()] *)
Definition beginPath : cmd :=
  fun c => mkCtx (cur c) (stack c) [] (surface c).

(** A point in device space under the current transformation. *)
Definition dev (t : xform) (x y : Q) : Q * Q :=
  (tx t + sx t * x, ty t + sy t * y).

Definition add_seg (mk : Q -> Q -> seg) (x y : Q) : cmd :=
  fun c =>
    let '(x', y') := dev (transform (cur c)) x y in
    mkCtx (cur c) (stack c) (path c ++ [mk x' y']) (surface c).

(** [ctx.moveTo(x, y)] *)
Definition moveTo : Q -> Q -> cmd := add_seg MoveTo.

(** [ctx.lineTo(x, y)] *)
Definition lineTo : Q -> Q -> cmd := add_seg LineTo.

(** [ctx.stroke()] *)
Definition stroke : cmd :=
  fun c =>
    paint (fun d => PStroke (path c) (strokeStyle d) (lineWidth d)
                      (globalAlpha d) (transform d)) c.

(** [ctx.clearRect(x, y, w, h)] *)
Definition clearRect (x y w h : Q) : cmd :=
  paint (fun d => PClearRect x y w h (transform d)).

(** [ctx.fillRect(x, y, w, h)] *)
Definition fillRect (x y w h : Q) : cmd :=
  paint (fun d => PFillRect x y w h (fillStyle d) (globalAlpha d)
                    (transform d)).

(** [ctx.fillText(s, x, y)] *)
Definition fillText (s : string) (x y : Q) : cmd :=
  paint (fun d => PFillText s x y (fillStyle d) (font d) (textAlign d)
                    (textBaseline d) (globalAlpha d) (transform d)).

(** A context as [getContext('2d')] first returns it, over a blank surface. *)
Definition initial : ctx :=
  mkCtx (mkDstate (CssColor "#000000") (CssColor "#000000") 1 1 DefaultFont
           "start" "alphabetic" identity) [] [] [].

End Canvas.

Declare Scope cmd_scope.
Delimit Scope cmd_scope with cmd.
Bind Scope cmd_scope with Canvas.cmd.
Notation "a ;; b" := (Canvas.seq a b)
  (at level 61, right associativity) : cmd_scope.

(** ** The frame renderer *)

Section Renderer.

Import Canvas.
Local Open Scope cmd_scope.

(** [Math.sin]. *)
Variable Math_sin : Q -> Q.

(** [function withAlpha(hex, a)] *)
Definition withAlpha (hex : string) (a : Q) : style :=
  let rgb := Color.hexToRgb hex in
  CssRgba (Color.r rgb) (Color.g rgb) (Color.b rgb) (clamp a 0 1).

(** The body of the loop of [drawLines], at index [i]. *)
Definition drawLine (lineHeight : Q) (il : nat * string) : cmd :=
  let '(i, line) := il in
  let yy := inject_Z (Z.of_nat i) * lineHeight in
  fillText line 0 yy.

(** [function drawLines(ctx, lines, x, y, lineHeight, blockHeight, scale, alpha)] *)
Definition drawLines (lines : list string) (x y lineHeight blockHeight : Q)
    (scale alpha : Q) : cmd :=
  save;;
  translate x (y - blockHeight / 2 + lineHeight / 2);;
  Canvas.scale scale scale;;
  set_globalAlpha alpha;;
  for_each (combine (List.seq 0 (List.length lines)) lines)
    (drawLine lineHeight);;
  restore.

(** The values [x] takes in [for (let x = 0; x <= width; x += step)] with
    [step = 18]: the multiples [18 * k] that do not exceed [width]. *)
Definition wave_xs (width : Q) : list Q :=
  map (fun k => 18 * inject_Z (Z.of_nat k))
      (List.seq 0 (Z.to_nat (Qfloor (width / 18) + 1))).

(** The body of the loop over [x]. *)
Definition wavePoint (y phase amplitude : Q) (x : Q) : cmd :=
  let yy := y + Math_sin (phase + x * 0.01) * amplitude in
  if Qeq_bool x 0 then moveTo 0 yy else lineTo x yy.

(** One iteration of the loop over the decorative waves. *)
Definition drawWave (width height tMs : Q) (i : Q) : cmd :=
  let phase := (tMs / 1000) * (0.2 + i * 0.05) in
  let y := height * (0.2 + i * 0.2) + Math_sin phase * 10 in
  let amplitude := 14 + i * 6 in
  beginPath;;
  for_each (wave_xs width) (wavePoint y phase amplitude);;
  set_strokeStyle (withAlpha "#6ea8fe" (0.18 - i * 0.04));;
  set_lineWidth (2 + i);;
  stroke.

(** [alpha], [yOffset] and [scale] after the [switch], for the cases that
    leave it through [break]. *)
Definition pose (s : Settings) (tMs : Q) : Q * Q * Q :=
  let progress := progress s tMs in
  match animation s with
  | fade => (fadeAlpha progress, 0, 1)
  | slide =>
      let direction := if Qlt_le_dec 0 (Math_sin (tMs * 0.002)) then 1 else -(1) in
      let p := easeInOutCubic progress in
      (0.9, (1 - p) * direction * height s * 0.25, 1)
  | zoom =>
      let p := easeOutBack (Qmin (progress * 1.2) 1) in
      (0.95, 0, 0.9 + p * 0.2)
  | typewriter => (1, 0, 1)
  end.

(** The progress bar at the end of [drawFrame]. *)
Definition drawProgressBar (s : Settings) (tMs : Q) : cmd :=
  let barMargin := 24 in
  let barWidth := width s - barMargin * 2 in
  let barHeight := 6 in
  let filled := Math_floor (barWidth * progress s tMs) in
  set_fillStyle (withAlpha "#6ea8fe" 0.35);;
  fillRect barMargin (height s - barMargin - barHeight) barWidth barHeight;;
  set_fillStyle (CssColor "#6ea8fe");;
  fillRect barMargin (height s - barMargin - barHeight) filled barHeight.

(** [function drawFrame(ctx, tMs)], reading [settings]. *)
Definition drawFrame (s : Settings) (tMs : Q) : cmd :=
  let lines := split_lines (text s) in
  let totalLineHeight := fontSize s * 1.3 in
  let blockHeight := totalLineHeight * inject_Z (Z.of_nat (List.length lines)) in
  (* Clear *)
  clearRect 0 0 (width s) (height s);;
  (* Background gradient *)
  set_fillStyle
    (LinearGradient 0 0 0 (height s)
       [(0, background s); (1, Color.shade (background s) (-(12)))]);;
  fillRect 0 0 (width s) (height s);;
  (* Animated decorative waves *)
  for_each [0; 1; 2] (drawWave (width s) (height s) tMs);;
  (* Text block *)
  set_fillStyle (CssColor (textColor s));;
  set_textAlign "center";;
  set_textBaseline "middle";;
  set_font (Font600 (fontSize s));;
  match animation s with
  | typewriter =>
      let visibleLines := split_lines (visible (text s) (progress s tMs)) in
      drawLines visibleLines (width s / 2) (height s / 2 + 0)
        totalLineHeight blockHeight 1 1
      (* return *)
  | _ =>
      let '(alpha, yOffset, scale) := pose s tMs in
      save;;
      set_globalAlpha alpha;;
      translate (width s / 2) (height s / 2 + yOffset);;
      Canvas.scale scale scale;;
      drawLines lines 0 0 totalLineHeight blockHeight 1 1;;
      restore;;
      (* Progress bar *)
      drawProgressBar s tMs
  end.

End Renderer.

(** ** The capture session *)

Module Session.

(** A [Blob]: its bytes and its MIME type. *)
Record blob := mkBlob { data : list Byte.byte; btype : string }.

(** [blob.size] *)
Definition size (b : blob) : nat := List.length (data b).

Inductive recState := Inactive | Recording | Paused.

(** The [MediaRecorder] object held in [recorderRef.current]. *)
Record recorder := mkRecorder { mimeType : string; rstate : recState }.

(** A thrown value [e]: its [message] property, if it has one, and
    [String(e)]. *)
Record thrown := mkThrown { message : option string; asString : string }.

(** [e?.message || String(e)] *)
Definition describe (e : thrown) : string :=
  match message e with
  | Some m => if String.eqb m "" then asString e else m
  | None => asString e
  end.

(** Calls made on the platform that outlive the function making them. *)
Inductive effect :=
| RequestAnimationFrame (id : positive)
| CancelAnimationFrame (id : positive)
| RecorderStart (timeslice : Q)
| RecorderStop.

(** The component's state cells and refs.  [canvas] is
    [canvasRef.current] together with the state of its 2D context;
    [blobUrl] stands for the object URL by the blob it designates; frame
    handles are non-zero. *)
Record state := mkState {
  recording : bool;
  blobUrl : option blob;
  error : option string;
  progressMs : Q;
  canvas : option Canvas.ctx;
  recorderRef : option recorder;
  chunksRef : list blob;
  rafRef : option positive;
  startTimeRef : Q
}.

(** The state on mount. *)
Definition mounted (canvas : option Canvas.ctx) : state :=
  mkState false None None 0 canvas None [] None 0.

(** What the platform answers during one call of [startRecording]. *)
Record platform := mkPlatform {
  (** [canvas.captureStream(fps)]: [Some e] when it throws [e] *)
  captureStream : option thrown;
  (** [MediaRecorder.isTypeSupported] *)
  isTypeSupported : string -> bool;
  (** [new MediaRecorder(stream, options)]: the thrown value, or the
      [mimeType] of the recorder created *)
  newMediaRecorder : option string -> thrown + string;
  (** [mr.start(100)]: [Some e] when it throws [e] *)
  start : option thrown;
  (** [performance.now()] *)
  now : Q;
  (** the handle [requestAnimationFrame] returns *)
  nextFrame : positive
}.

(** How a call ends: the state it leaves, the platform calls it made, and
    the exception that escaped it, if any. *)
Record outcome := mkOutcome {
  final : state;
  effects : list effect;
  raised : option thrown
}.

Definition mimeCandidates : list string :=
  [ "video/webm;codecs=vp9,opus";
    "video/webm;codecs=vp8,opus";
    "video/webm";
    "video/mp4;codecs=h264,aac" ]%string.

Definition set_recording (v : bool) (st : state) : state :=
  mkState v (blobUrl st) (error st) (progressMs st) (canvas st)
    (recorderRef st) (chunksRef st) (rafRef st) (startTimeRef st).

Definition set_blobUrl (v : option blob) (st : state) : state :=
  mkState (recording st) v (error st) (progressMs st) (canvas st)
    (recorderRef st) (chunksRef st) (rafRef st) (startTimeRef st).

Definition set_error (v : option string) (st : state) : state :=
  mkState (recording st) (blobUrl st) v (progressMs st) (canvas st)
    (recorderRef st) (chunksRef st) (rafRef st) (startTimeRef st).

Definition set_progressMs (v : Q) (st : state) : state :=
  mkState (recording st) (blobUrl st) (error st) v (canvas st)
    (recorderRef st) (chunksRef st) (rafRef st) (startTimeRef st).

Definition set_canvas (v : option Canvas.ctx) (st : state) : state :=
  mkState (recording st) (blobUrl st) (error st) (progressMs st) v
    (recorderRef st) (chunksRef st) (rafRef st) (startTimeRef st).

Definition set_recorderRef (v : option recorder) (st : state) : state :=
  mkState (recording st) (blobUrl st) (error st) (progressMs st) (canvas st)
    v (chunksRef st) (rafRef st) (startTimeRef st).

Definition set_chunksRef (v : list blob) (st : state) : state :=
  mkState (recording st) (blobUrl st) (error st) (progressMs st) (canvas st)
    (recorderRef st) v (rafRef st) (startTimeRef st).

Definition set_rafRef (v : option positive) (st : state) : state :=
  mkState (recording st) (blobUrl st) (error st) (progressMs st) (canvas st)
    (recorderRef st) (chunksRef st) v (startTimeRef st).

Definition set_startTimeRef (v : Q) (st : state) : state :=
  mkState (recording st) (blobUrl st) (error st) (progressMs st) (canvas st)
    (recorderRef st) (chunksRef st) (rafRef st) v.

(** [mr && mr.state !== 'inactive'] *)
Definition recorder_active (st : state) : bool :=
  match recorderRef st with
  | Some mr => match rstate mr with Inactive => false | _ => true end
  | None => false
  end.

(** [function stopRecording()] *)
Definition stopRecording (st : state) : outcome :=
  let fx1 := match rafRef st with
             | Some id => [CancelAnimationFrame id]
             | None => []
             end in
  let st1 := set_rafRef None st in
  let '(st2, fx2) :=
    match recorderRef st1 with
    | Some mr =>
        match rstate mr with
        | Inactive => (st1, [])
        | _ => (set_recorderRef (Some (mkRecorder (mimeType mr) Inactive)) st1,
                [RecorderStop])
        end
    | None => (st1, [])
    end in
  mkOutcome (set_recording false st2) (fx1 ++ fx2) None.

(** The [catch (e)] block of [startRecording]. *)
Definition catch (e : thrown) (st : state) : outcome :=
  mkOutcome (set_recording false (set_error (Some (describe e)) st)) [] None.

(** [mimeCandidates.find(MediaRecorder.isTypeSupported) || ''] *)
Definition chooseMimeType (p : platform) : string :=
  match find (isTypeSupported p) mimeCandidates with
  | Some m => m
  | None => ""%string
  end.

(** [mimeType ? { mimeType } : undefined] *)
Definition recorderOptions (mimeType : string) : option string :=
  if String.eqb mimeType "" then None else Some mimeType.

(** [function startRecording()] *)
Definition startRecording (s : Settings) (p : platform) (st : state)
  : outcome :=
  let st := set_blobUrl None (set_error None st) in
  match canvas st with
  | None => mkOutcome st [] None
  | Some _ =>
      match captureStream p with
      | Some e => mkOutcome st [] (Some e)
      | None =>
          let mimeType := chooseMimeType p in
          (* try *)
          match newMediaRecorder p (recorderOptions mimeType) with
          | inl e => catch e st
          | inr actual =>
              let mr := mkRecorder actual Inactive in
              let st := set_chunksRef [] (set_recorderRef (Some mr) st) in
              let st := set_progressMs 0 (set_startTimeRef (now p) st) in
              let st := set_recording true st in
              match start p with
              | Some e => catch e st
              | None =>
                  let st :=
                    set_recorderRef (Some (mkRecorder actual Recording)) st in
                  mkOutcome (set_rafRef (Some (nextFrame p)) st)
                    [RecorderStart 100; RequestAnimationFrame (nextFrame p)]
                    None
              end
          end
      end
  end.

(** [mr.ondataavailable]: [e.data] is [None] when it is [null]. *)
Definition ondataavailable (e : option blob) (st : state) : state :=
  match e with
  | Some d =>
      if (0 <? size d)%nat then set_chunksRef (chunksRef st ++ [d]) st
      else st
  | None => st
  end.

(** [new Blob(parts, { type })] *)
Definition newBlob (parts : list blob) (type : string) : blob :=
  mkBlob (List.concat (map data parts)) type.

(** [mr.onstop] *)
Definition onstop (st : state) : state :=
  match recorderRef st with
  | Some mr =>
      let type := if String.eqb (mimeType mr) "" then "video/webm"%string
                  else mimeType mr in
      set_blobUrl (Some (newBlob (chunksRef st) type)) st
  | None => st
  end.

(** The events the recorder delivers, in order, to [ondataavailable]. *)
Definition deliver (es : list (option blob)) (st : state) : state :=
  fold_left (fun st' e => ondataavailable e st') es st.

(** The fragments carried by a sequence of events, in emission order. *)
Definition emitted (es : list (option blob)) : list blob :=
  flat_map (fun e => match e with Some d => [d] | None => [] end) es.

(** Those of them that hold at least one byte. *)
Definition nonempty (es : list (option blob)) : list blob :=
  filter (fun d => negb (size d =? 0)%nat) (emitted es).

(** Sample platforms: one that supports everything, one whose canvas
    cannot capture a stream, one whose recorder constructor throws. *)
Definition platform_ok : platform :=
  mkPlatform None (fun _ => true) (fun _ => inr "video/webm"%string) None
    1000 1%positive.

Definition platform_no_stream : platform :=
  mkPlatform
    (Some (mkThrown (Some "canvas.captureStream is not a function"%string)
             "TypeError: canvas.captureStream is not a function"))
    (fun _ => true) (fun _ => inr "video/webm"%string) None 1000 1%positive.

Definition platform_no_recorder : platform :=
  mkPlatform None (fun _ => false)
    (fun _ => inl (mkThrown (Some "MediaRecorder unavailable"%string)
                     "NotSupportedError: MediaRecorder unavailable"))
    None 1000 1%positive.

Section Tick.

Variable Math_sin : Q -> Q.

(** The [tick] closure of [startRecording], called by the scheduler at
    time [now]; [has2d] tells whether [canvas.getContext('2d')] returns a
    context, [next] is the handle the next [requestAnimationFrame]
    returns. *)
Definition tick (s : Settings) (now : Q) (has2d : bool) (next : positive)
    (st : state) : outcome :=
  let totalMs := durationSeconds s * 1000 in
  let tMs := now - startTimeRef st in
  let st := set_progressMs tMs st in
  match canvas st with
  | Some ctx =>
      if has2d then
        let st := set_canvas (Some (drawFrame Math_sin s tMs ctx)) st in
        if Qlt_le_dec tMs totalMs then
          mkOutcome (set_rafRef (Some next) st) [RequestAnimationFrame next] None
        else stopRecording st
      else mkOutcome st [] None
  | None => mkOutcome st [] None
  end.

(** The states a session can be in: from mount, through any sequence of
    calls of the handlers and callbacks, with any platform answers.  The
    recorder may also change state on its own. *)
Inductive reachable : state -> Prop :=
| R_mounted c : reachable (mounted c)
| R_start s p st : reachable st -> reachable (final (startRecording s p st))
| R_stop st : reachable st -> reachable (final (stopRecording st))
| R_tick s now has2d next st :
    reachable st -> reachable (final (tick s now has2d next st))
| R_data e st : reachable st -> reachable (ondataavailable e st)
| R_onstop st : reachable st -> reachable (onstop st)
| R_recorder mr rs st :
    reachable st -> recorderRef st = Some mr ->
    reachable (set_recorderRef (Some (mkRecorder (mimeType mr) rs)) st).

End Tick.

End Session.

(** ** Notions used to state the properties of the renderer *)

(** A freshly cleared surface: nothing painted, and the attributes the
    renderer never sets before painting (alpha and transformation) at
    their defaults.  The other attributes, the current path and the
    save/restore stack are arbitrary. *)
Definition fresh (c : Canvas.ctx) : Prop :=
  Canvas.surface c = [] /\
  Canvas.globalAlpha (Canvas.cur c) = 1 /\
  Canvas.transform (Canvas.cur c) = Canvas.identity.

(** Wiping the surface between two frames. *)
Definition wipe (c : Canvas.ctx) : Canvas.ctx :=
  Canvas.mkCtx (Canvas.cur c) (Canvas.stack c) (Canvas.path c) [].

(** The surface ends with a progress bar whose filled part is [w] wide:
    the track over the width minus the margins in the accent colour at
    alpha [0.35], then the filled rectangle in the opaque accent colour,
    both painted with the alpha and transformation of [c0]. *)
Definition ends_with_bar (s : Settings) (w : Q) (c0 c : Canvas.ctx) : Prop :=
  exists (pre : list Canvas.prim) (w' : Q),
    Canvas.surface c =
    pre ++
    [Canvas.PFillRect 24 (height s - 24 - 6) (width s - 24 * 2) 6
       (Canvas.CssRgba 110 168 254 0.35)
       (Canvas.globalAlpha (Canvas.cur c0)) (Canvas.transform (Canvas.cur c0));
     Canvas.PFillRect 24 (height s - 24 - 6) w' 6
       (Canvas.CssColor "#6ea8fe")
       (Canvas.globalAlpha (Canvas.cur c0)) (Canvas.transform (Canvas.cur c0))]
    /\ w' == w.


(** The primitive painted last. *)
Definition last_painted (c : Canvas.ctx) : Canvas.prim :=
  last (Canvas.surface c) (Canvas.PClearRect 0 0 0 0 Canvas.identity).

Definition is_fillText (p : Canvas.prim) : bool :=
  match p with
  | Canvas.PFillText _ _ _ _ _ _ _ _ _ => true
  | _ => false
  end.

(** Sample inputs: the default settings with the typewriter animation, and
    a context over a wiped surface that still carries the attributes, path
    and stack entry of earlier drawing. *)
Definition typewriter_defaults : Settings :=
  mkSettings (width DEFAULTS) (height DEFAULTS) (fps DEFAULTS)
    (durationSeconds DEFAULTS) (background DEFAULTS) (textColor DEFAULTS)
    (text DEFAULTS) (fontSize DEFAULTS) typewriter.

Definition used_ctx : Canvas.ctx :=
  Canvas.mkCtx
    (Canvas.mkDstate (Canvas.CssColor "#6ea8fe") (Canvas.CssColor "#ff0000")
       4 1 (Canvas.Font600 48) "center" "middle" Canvas.identity)
    [Canvas.cur Canvas.initial]
    [Canvas.MoveTo 0 0; Canvas.LineTo 18 7]
    [].

(** A stand-in for [Math.sin] when a frame is evaluated on sample input. *)
Definition sin0 : Q -> Q := fun _ => 0.

(** ** Further code of the component, and notions used to state its
    properties *)

(** [estimatedSize]:
    [Math.round((settings.durationSeconds * kbPerSecond) / 1024 * 100) / 100]
    with [kbPerSecond = 220]. *)
Definition estimatedSize (s : Settings) : Q :=
  let kbPerSecond := 220 in
  inject_Z (Math_round ((durationSeconds s * kbPerSecond) / 1024 * 100)) / 100.

(** Whether [toHex] prints [n] as two hex digits, already in lower case,
    that [parseInt16] reads back. *)
Definition toHex_ok (n : Z) : bool :=
  match Color.toHex n with
  | String a (String b EmptyString) =>
      Color.is_hex a && Color.is_hex b && (Color.parseInt16 a b =? n)%Z
      && Ascii.eqb (Color.lower a) a && Ascii.eqb (Color.lower b) b
  | _ => false
  end.

(** The scaling factor of [shade]: [(100 + percent) / 100]. *)
Definition shade_factor (percent : Q) : Q := (100 + percent) / 100.

(** Sample settings: the defaults with another animation. *)
Definition with_animation (a : AnimationType) (s : Settings) : Settings :=
  mkSettings (width s) (height s) (fps s) (durationSeconds s) (background s)
    (textColor s) (text s) (fontSize s) a.

(** The number of occurrences of the character [c] in [s]. *)
Fixpoint count_char (c : ascii) (s : string) : nat :=
  match s with
  | EmptyString => O
  | String c' s' => (if Ascii.eqb c' c then 1 else 0) + count_char c s'
  end.

(** Line feed and carriage return. *)
Definition LF : ascii := ascii_of_nat 10.
Definition CR : ascii := ascii_of_nat 13.

(** The primitive [fillText(line, 0, i * lineHeight)] leaves on the
    surface when the attributes are [d]. *)
Definition painted_line (lineHeight : Q) (d : Canvas.dstate)
    (il : nat * string) : Canvas.prim :=
  Canvas.PFillText (snd il) 0 (inject_Z (Z.of_nat (fst il)) * lineHeight)
    (Canvas.fillStyle d) (Canvas.font d) (Canvas.textAlign d)
    (Canvas.textBaseline d) (Canvas.globalAlpha d) (Canvas.transform d).

(** The attributes in force inside [drawLines], after its [translate],
    [scale] and [globalAlpha] assignment, when it is entered with [d]. *)
Definition lines_dstate (x y lineHeight blockHeight scale alpha : Q)
    (d : Canvas.dstate) : Canvas.dstate :=
  Canvas.mkDstate (Canvas.fillStyle d) (Canvas.strokeStyle d)
    (Canvas.lineWidth d)
    (if Canvas.valid_alpha alpha then alpha else Canvas.globalAlpha d)
    (Canvas.font d) (Canvas.textAlign d) (Canvas.textBaseline d)
    (Canvas.mkXform
       (Canvas.sx (Canvas.transform d) * scale)
       (Canvas.sy (Canvas.transform d) * scale)
       (Canvas.tx (Canvas.transform d) + Canvas.sx (Canvas.transform d) * x)
       (Canvas.ty (Canvas.transform d)
        + Canvas.sy (Canvas.transform d)
          * (y - blockHeight / 2 + lineHeight / 2))).

(** The lines a frame shows: the revealed prefix for the typewriter, the
    whole text otherwise. *)
Definition frame_lines (s : Settings) (tMs : Q) : list string :=
  match animation s with
  | typewriter => split_lines (visible (text s) (progress s tMs))
  | _ => split_lines (text s)
  end.

(** The progress bar as painted with alpha [ga] and transformation [tr]. *)
Definition progress_bar (s : Settings) (tMs : Q) (ga : Q)
    (tr : Canvas.xform) : list Canvas.prim :=
  [Canvas.PFillRect 24 (height s - 24 - 6) (width s - 24 * 2) 6
     (Canvas.CssRgba 110 168 254 0.35) ga tr;
   Canvas.PFillRect 24 (height s - 24 - 6)
     (Math_floor ((width s - 24 * 2) * progress s tMs)) 6
     (Canvas.CssColor "#6ea8fe") ga tr].

(** The progress bar with a filled part [w] wide, as painted with alpha
    [ga] and transformation [tr]. *)
Definition bar_of_width (s : Settings) (w : Q) (ga : Q) (tr : Canvas.xform)
  : list Canvas.prim :=
  [Canvas.PFillRect 24 (height s - 24 - 6) (width s - 24 * 2) 6
     (Canvas.CssRgba 110 168 254 0.35) ga tr;
   Canvas.PFillRect 24 (height s - 24 - 6) w 6
     (Canvas.CssColor "#6ea8fe") ga tr].

(** What ends a frame: nothing for the typewriter, the progress bar
    otherwise. *)
Definition frame_bar (s : Settings) (tMs : Q) (ga : Q) (tr : Canvas.xform)
  : list Canvas.prim :=
  match animation s with
  | typewriter => []
  | _ => progress_bar s tMs ga tr
  end.

(** The alpha a primitive was painted with. *)
Definition alpha_of (p : Canvas.prim) : option Q :=
  match p with
  | Canvas.PClearRect _ _ _ _ _ => None
  | Canvas.PFillRect _ _ _ _ _ a _ => Some a
  | Canvas.PStroke _ _ _ a _ => Some a
  | Canvas.PFillText _ _ _ _ _ _ _ a _ => Some a
  end.

(** The primitives a command adds to the surface of [c]. *)
Definition added (c c' : Canvas.ctx) : list Canvas.prim :=
  skipn (List.length (Canvas.surface c)) (Canvas.surface c').




Definition is_cancel (e : Session.effect) : bool :=
  match e with
  | Session.CancelAnimationFrame _ => true
  | _ => false
  end.

(** Sample settings: the zoom animation over ten seconds. *)
Definition zoom_longer : Settings :=
  mkSettings 720 1280 60 10 "#0c1326" "#e7ecff" "Hello" 48 zoom.

(** What holds of every state a session can reach: the buffer holds
    non-empty fragments only; and while the [recording] flag is up there
    is a recorder, a frame handle is stored and no error is displayed. *)
Definition session_inv (st : Session.state) : Prop :=
  Forall (fun d => (0 < Session.size d)%nat) (Session.chunksRef st) /\
  (Session.recording st = true ->
   Session.recorderRef st <> None /\ Session.rafRef st <> None /\
   Session.error st = None).

(** The pieces of a split put back together with line feeds between them. *)
Definition join_lines (ls : list string) : string := String.concat newline ls.

(** Whether the character [c] occurs in [s]. *)
Fixpoint occurs (c : ascii) (s : string) : bool :=
  match s with
  | EmptyString => false
  | String c' s' => Ascii.eqb c' c || occurs c s'
  end.

Definition is_fillRect (p : Canvas.prim) : bool :=
  match p with
  | Canvas.PFillRect _ _ _ _ _ _ _ => true
  | _ => false
  end.

Definition is_stroke (p : Canvas.prim) : bool :=
  match p with
  | Canvas.PStroke _ _ _ _ _ => true
  | _ => false
  end.

(** The text of a painted line, if the primitive is one. *)
Definition text_of (p : Canvas.prim) : option string :=
  match p with
  | Canvas.PFillText t _ _ _ _ _ _ _ _ => Some t
  | _ => None
  end.

(** * Properties *)

(** ** Sanity checks of the embedding on the default settings *)

Example hexToRgb_default : Color.hexToRgb "#0c1326" = Color.mkRgb 12 19 38.
Proof. reflexivity. Qed.

Example shade_default : Color.shade "#0c1326" (-(12)) = "#0b1121"%string.
Proof. vm_compute. reflexivity. Qed.

Example toHex_big : Color.toHex 4095 = "fff"%string.
Proof. reflexivity. Qed.

Example split_default :
  split_lines (text DEFAULTS)
  = ["Hello, world!";
     "This video was generated entirely in your browser."]%string.
Proof. reflexivity. Qed.

Example split_crlf :
  split_lines ("a" ++ String (ascii_of_nat 13) newline ++ "b"
               ++ String (ascii_of_nat 13) "c")
  = ["a"; "b" ++ String (ascii_of_nat 13) "c"]%string.
Proof. reflexivity. Qed.

Example progress_half : progress DEFAULTS 3000 == 1 # 2.
Proof. vm_compute. reflexivity. Qed.

(** ** Arithmetic of [clamp] and of the easing curves *)

Lemma clamp_bounds (n lo hi : Q) : lo <= hi -> lo <= clamp n lo hi <= hi.
Proof.
  intros Hlh. unfold clamp. split.
  - apply Q.le_max_l.
  - apply Q.max_lub; [exact Hlh | apply Q.le_min_l].
Qed.

Lemma clamp_mono (a b lo hi : Q) : a <= b -> clamp a lo hi <= clamp b lo hi.
Proof.
  intros Hab. unfold clamp.
  apply Q.max_le_compat_l, Q.min_le_compat_l, Hab.
Qed.

Lemma clamp_above (n : Q) : 1 <= n -> clamp n 0 1 = 1.
Proof.
  intros H. unfold clamp, Qmin, Qmax, GenericMinMax.gmin, GenericMinMax.gmax.
  destruct (1 ?= n) eqn:E.
  - reflexivity.
  - reflexivity.
  - apply Qgt_alt in E. exfalso. apply (Qlt_not_le _ _ E H).
Qed.

Lemma sq_unit (x : Q) : 0 <= x <= 1 -> 0 <= x * x <= 1.
Proof.
  intros [H0 H1]. split.
  - apply Qmult_le_0_compat; assumption.
  - apply Qle_trans with (1 * x).
    + apply Qmult_le_compat_r; assumption.
    + lra.
Qed.

Lemma cube_unit (x : Q) : 0 <= x <= 1 -> 0 <= x * x * x <= 1.
Proof.
  intros H. destruct (sq_unit x H) as [S0 S1]. destruct H as [H0 H1]. split.
  - apply Qmult_le_0_compat; assumption.
  - apply Qle_trans with (1 * x).
    + apply Qmult_le_compat_r; assumption.
    + lra.
Qed.

Lemma easeOutCubic_unit (t : Q) : 0 <= t <= 1 -> 0 <= easeOutCubic t <= 1.
Proof.
  intros H. unfold easeOutCubic, pow3.
  assert (H' : 0 <= 1 - t <= 1) by lra.
  pose proof (cube_unit _ H'). lra.
Qed.

Lemma easeInCubic_unit (t : Q) : 0 <= t <= 1 -> 0 <= easeInCubic t <= 1.
Proof. intros H. unfold easeInCubic. apply cube_unit, H. Qed.

Lemma fadeAlpha_unit (p : Q) : 0 <= fadeAlpha p <= 1.
Proof.
  unfold fadeAlpha.
  assert (Hc : (0 <= 1)%Q) by lra.
  pose proof (easeOutCubic_unit _ (clamp_bounds (p * 2) 0 1 Hc)) as [A0 A1].
  pose proof (easeInCubic_unit _ (clamp_bounds ((p - 0.5) * 2) 0 1 Hc))
    as [B0 B1].
  set (a := easeOutCubic _) in *. set (b := easeInCubic _) in *.
  split.
  - apply Qmult_le_0_compat; lra.
  - apply Qle_trans with (1 * (1 - b)).
    + apply Qmult_le_compat_r; lra.
    + lra.
Qed.

(** ** C6: progress is monotone and saturates at one *)

(** C6.  For a positive [durationSeconds], [progress] is non-decreasing in
    the elapsed time, and it is exactly [1] once the elapsed time has
    reached [durationSeconds * 1000]. *)
Theorem progress_monotone_saturating (s : Settings) :
  0 < durationSeconds s ->
  (forall t1 t2 : Q, t1 <= t2 -> progress s t1 <= progress s t2) /\
  (forall t : Q, durationSeconds s * 1000 <= t -> progress s t = 1).
Proof.
  intros Hd.
  assert (Hp : 0 < durationSeconds s * 1000) by lra.
  split.
  - intros t1 t2 Ht. unfold progress. apply clamp_mono.
    unfold Qdiv. apply Qmult_le_compat_r; [exact Ht |].
    apply Qinv_le_0_compat, Qlt_le_weak, Hp.
  - intros t Ht. unfold progress. apply clamp_above.
    apply Qle_shift_div_l; [exact Hp | lra].
Qed.

Lemma progress_monotone_saturating_witness :
  0 < durationSeconds DEFAULTS /\
  progress DEFAULTS 1000 <= progress DEFAULTS 2000 /\
  progress DEFAULTS 7000 = 1.
Proof.
  assert (H : 0 < durationSeconds DEFAULTS) by reflexivity.
  split; [exact H |].
  destruct (progress_monotone_saturating DEFAULTS H) as [Hm Hs].
  split.
  - apply Hm. discriminate.
  - apply Hs. discriminate.
Defined.

(** ** C7: the fade curve *)

(** C7.  The text alpha of the [fade] animation is [0] at progress [0] and
    at progress [1] (hence within [1e-6] of [0]), and its value at progress
    [0.5], which is [1], is not exceeded at any progress. *)
Theorem fade_boundary_and_peak :
  fadeAlpha 0 == 0 /\
  fadeAlpha 1 == 0 /\
  Qabs (fadeAlpha 0) <= 0.000001 /\
  Qabs (fadeAlpha 1) <= 0.000001 /\
  fadeAlpha 0.5 == 1 /\
  (forall p : Q, fadeAlpha p <= fadeAlpha 0.5).
Proof.
  assert (H0 : fadeAlpha 0 == 0) by (vm_compute; reflexivity).
  assert (H1 : fadeAlpha 1 == 0) by (vm_compute; reflexivity).
  assert (Hh : fadeAlpha 0.5 == 1) by (vm_compute; reflexivity).
  repeat split; try assumption.
  - rewrite H0. vm_compute. discriminate.
  - rewrite H1. vm_compute. discriminate.
  - intros p. rewrite Hh. apply fadeAlpha_unit.
Qed.

(** ** C5: the typewriter reveal *)

Lemma slice0_length (s : string) (n : nat) :
  String.length (substring 0 n s) = Nat.min n (String.length s).
Proof.
  revert n. induction s as [| c s IH]; intros [| n]; simpl; try reflexivity.
  f_equal. apply IH.
Qed.

Lemma slice0_all (s : string) (n : nat) :
  (String.length s <= n)%nat -> substring 0 n s = s.
Proof.
  revert n. induction s as [| c s IH]; intros [| n] H; simpl in *;
    try reflexivity; try lia.
  f_equal. apply IH. lia.
Qed.

Lemma strlen_nonneg (s : string) : 0 <= strlen s.
Proof.
  unfold strlen. change 0 with (inject_Z 0). rewrite <- Zle_Qle. lia.
Qed.

Lemma charsToShow_mono (txt : string) (p q : Q) :
  p <= q -> (charsToShow txt p <= charsToShow txt q)%Z.
Proof.
  intros H. unfold charsToShow. apply Qfloor_resp_le.
  apply Qmult_le_compat_r; [exact H |].
  pose proof (strlen_nonneg txt). lra.
Qed.

Lemma charsToShow_one (txt : string) :
  charsToShow txt 1 = (Z.of_nat (String.length txt) + 6)%Z.
Proof.
  unfold charsToShow, strlen.
  rewrite <- (Qfloor_Z (Z.of_nat (String.length txt) + 6)).
  apply Qfloor_comp. rewrite inject_Z_plus. change (inject_Z 6) with 6. ring.
Qed.

Lemma visible_length (txt : string) (p : Q) :
  String.length (visible txt p)
  = Nat.min (Z.to_nat (Z.max 0 (charsToShow txt p))) (String.length txt).
Proof. unfold visible, slice0. apply slice0_length. Qed.

(** C5.  In the typewriter animation the revealed string
    [text.slice(0, max(0, floor(progress * (len(text) + 6))))] has a
    length that is non-decreasing in [progress], never exceeds
    [len(text)], and is [len(text)] (the whole text is shown) at
    [progress = 1] and from [progress = len / (len + 6)] on. *)
Theorem typewriter_reveal (txt : string) :
  (forall p q : Q, p <= q ->
     (String.length (visible txt p) <= String.length (visible txt q))%nat) /\
  (forall p : Q, (String.length (visible txt p) <= String.length txt)%nat) /\
  visible txt 1 = txt /\
  (forall p : Q, strlen txt / (strlen txt + 6) <= p -> visible txt p = txt).
Proof.
  split; [| split; [| split]].
  - intros p q H. rewrite !visible_length.
    pose proof (charsToShow_mono txt p q H). lia.
  - intros p. rewrite visible_length. lia.
  - unfold visible, slice0. rewrite charsToShow_one. apply slice0_all. lia.
  - intros p H. unfold visible, slice0. apply slice0_all.
    assert (Hn : (Z.of_nat (String.length txt) <= charsToShow txt p)%Z).
    { unfold charsToShow.
      rewrite <- (Qfloor_Z (Z.of_nat (String.length txt))).
      apply Qfloor_resp_le. fold (strlen txt).
      pose proof (strlen_nonneg txt) as Hs.
      assert (Hpos : 0 < strlen txt + 6) by lra.
      apply Qle_trans with (strlen txt / (strlen txt + 6) * (strlen txt + 6)).
      - rewrite Qmult_comm, Qmult_div_r; [apply Qle_refl | lra].
      - apply Qmult_le_compat_r; [exact H | lra]. }
    lia.
Qed.

Lemma typewriter_reveal_witness :
  (0.25 <= 0.5) /\
  (String.length (visible "Hello" 0.25) <= String.length (visible "Hello" 0.5))%nat /\
  visible "Hello" 0.25 = "He"%string /\
  visible "Hello" 0.5 = "Hello"%string.
Proof.
  assert (H : 0.25 <= 0.5) by discriminate.
  split; [exact H |]. split.
  - exact (proj1 (typewriter_reveal "Hello") 0.25 0.5 H).
  - split; reflexivity.
Defined.

(** ** C4, C8: colour conversion *)

Module ColorFacts.
Import Color.
Local Open Scope char_scope.

Lemma is_hex_cases (c : ascii) : is_hex c = true -> In c hex_chars.
Proof.
  destruct c as [[] [] [] [] [] [] [] []]; intros H;
    try (vm_compute in H; discriminate H);
    vm_compute; intuition (try reflexivity).
Qed.

Lemma hex_val_range (c : ascii) : (0 <= hex_val c <= 15)%Z.
Proof.
  unfold hex_val. set (n := Z.of_nat (nat_of_ascii c)).
  destruct ((48 <=? n) && (n <=? 57))%Z eqn:E1;
    [| destruct ((97 <=? n) && (n <=? 102))%Z eqn:E2;
       [| destruct ((65 <=? n) && (n <=? 70))%Z eqn:E3]];
    try (apply andb_prop in E1); try (apply andb_prop in E2);
    try (apply andb_prop in E3); lia.
Qed.

Lemma parseInt16_range (c1 c2 : ascii) : (0 <= parseInt16 c1 c2 <= 255)%Z.
Proof.
  unfold parseInt16.
  pose proof (hex_val_range c1). pose proof (hex_val_range c2). lia.
Qed.

Lemma exec_groups_some (s : string) (cs : list ascii) :
  exec_groups s = Some cs ->
  s = string_of_list_ascii cs /\ List.length cs = 6%nat /\
  forallb is_hex cs = true.
Proof.
  destruct s as [| c1 [| c2 [| c3 [| c4 [| c5 [| c6 [| c7 s]]]]]]];
    try discriminate.
  unfold exec_groups.
  destruct (forallb is_hex [c1; c2; c3; c4; c5; c6]) eqn:E; [| discriminate].
  intros H. injection H as <-. repeat split. exact E.
Qed.

Lemma exec_groups_none (s : string) :
  exec_groups s = None -> is_bare_hex s = false.
Proof.
  unfold is_bare_hex.
  destruct s as [| c1 [| c2 [| c3 [| c4 [| c5 [| c6 [| c7 s]]]]]]];
    try reflexivity.
  unfold exec_groups.
  destruct (forallb is_hex [c1; c2; c3; c4; c5; c6]) eqn:E; [discriminate |].
  intros _. cbn [list_ascii_of_string List.length Nat.eqb andb].
  exact E.
Qed.

Lemma not_hex_hash : is_hex "#" = false.
Proof. reflexivity. Qed.

Lemma regex_exec_none (hex : string) :
  regex_exec hex = None -> is_hash_hex hex = false /\ is_bare_hex hex = false.
Proof.
  destruct hex as [| c rest]; [intros _; split; reflexivity |].
  unfold regex_exec. destruct (Ascii.eqb_spec c "#") as [-> | Hne].
  - intros H. apply exec_groups_none in H. split.
    + unfold is_hash_hex. cbn [list_ascii_of_string].
      rewrite Ascii.eqb_refl. unfold is_bare_hex in H. exact H.
    + unfold is_bare_hex. cbn [list_ascii_of_string forallb].
      rewrite not_hex_hash. apply andb_false_r.
  - intros H. apply exec_groups_none in H. split; [| exact H].
    unfold is_hash_hex. cbn [list_ascii_of_string].
    destruct (Ascii.eqb_spec c "#"); [contradiction | reflexivity].
Qed.

Lemma hexToRgb_range (hex : string) :
  (0 <= r (hexToRgb hex) <= 255)%Z /\
  (0 <= g (hexToRgb hex) <= 255)%Z /\
  (0 <= b (hexToRgb hex) <= 255)%Z.
Proof.
  unfold hexToRgb. destruct (regex_exec hex) as [cs |]; [| simpl; lia].
  destruct cs as [| c1 [| c2 [| c3 [| c4 [| c5 [| c6 [| c7 cs]]]]]]];
    try (simpl; lia).
  cbn [r g b]. auto using parseInt16_range.
Qed.

Lemma hexToRgb_bare (c1 c2 c3 c4 c5 c6 : ascii) :
  forallb is_hex [c1; c2; c3; c4; c5; c6] = true ->
  hexToRgb (string_of_list_ascii [c1; c2; c3; c4; c5; c6])
  = mkRgb (parseInt16 c1 c2) (parseInt16 c3 c4) (parseInt16 c5 c6).
Proof.
  intros H. unfold hexToRgb, regex_exec. cbn [string_of_list_ascii].
  destruct (Ascii.eqb_spec c1 "#") as [-> | _].
  - cbn [forallb] in H. rewrite not_hex_hash in H. discriminate H.
  - unfold exec_groups. rewrite H. reflexivity.
Qed.

Lemma hexToRgb_hash (c1 c2 c3 c4 c5 c6 : ascii) :
  forallb is_hex [c1; c2; c3; c4; c5; c6] = true ->
  hexToRgb (String "#" (string_of_list_ascii [c1; c2; c3; c4; c5; c6]))
  = mkRgb (parseInt16 c1 c2) (parseInt16 c3 c4) (parseInt16 c5 c6).
Proof.
  intros H. unfold hexToRgb, regex_exec. rewrite Ascii.eqb_refl.
  cbn [string_of_list_ascii]. unfold exec_groups. rewrite H. reflexivity.
Qed.

Lemma toHex_parseInt16 (c1 c2 : ascii) :
  is_hex c1 = true -> is_hex c2 = true ->
  toHex (parseInt16 c1 c2) = String (lower c1) (String (lower c2) EmptyString).
Proof.
  intros H1 H2. apply is_hex_cases in H1. apply is_hex_cases in H2.
  unfold hex_chars in H1, H2. cbn [In] in H1, H2.
  repeat (destruct H1 as [<- | H1]); try contradiction;
    repeat (destruct H2 as [<- | H2]); try contradiction;
    vm_compute; reflexivity.
Qed.

End ColorFacts.

(** The reading of C4 as it is worded fails: a string of six hex digits
    without the leading [#] does not have the form [#RRGGBB], yet the
    regular expression makes the [#] optional and the channels are
    parsed. *)
Lemma hexToRgb_missing_hash_parsed :
  Color.is_hash_hex "ff8800" = false /\
  Color.hexToRgb "ff8800" = Color.mkRgb 255 136 0 /\
  Color.hexToRgb "ff8800" <> Color.mkRgb 0 0 0.
Proof. repeat split. discriminate. Qed.

(** C4 (amended).  [hexToRgb] never fails and returns channels in
    [0, 255].  A string that is neither [#RRGGBB] nor [RRGGBB] (six hex
    digits, either case, the [#] optional) yields [{r:0, g:0, b:0}]; a
    string of one of these two forms yields its three parsed channels. *)
Theorem hexToRgb_lenient (hex : string) :
  ((0 <= Color.r (Color.hexToRgb hex) <= 255)%Z /\
   (0 <= Color.g (Color.hexToRgb hex) <= 255)%Z /\
   (0 <= Color.b (Color.hexToRgb hex) <= 255)%Z) /\
  (Color.is_hash_hex hex = false -> Color.is_bare_hex hex = false ->
   Color.hexToRgb hex = Color.mkRgb 0 0 0) /\
  (forall c1 c2 c3 c4 c5 c6 : ascii,
     forallb Color.is_hex [c1; c2; c3; c4; c5; c6] = true ->
     hex = string_of_list_ascii [c1; c2; c3; c4; c5; c6] \/
     hex = String "#" (string_of_list_ascii [c1; c2; c3; c4; c5; c6]) ->
     Color.hexToRgb hex
     = Color.mkRgb (Color.parseInt16 c1 c2) (Color.parseInt16 c3 c4)
         (Color.parseInt16 c5 c6)).
Proof.
  split; [apply ColorFacts.hexToRgb_range | split].
  - intros Hh Hb. unfold Color.hexToRgb.
    destruct (Color.regex_exec hex) as [cs |] eqn:E; [| reflexivity].
    exfalso. destruct hex as [| c rest]; [discriminate E |].
    unfold Color.regex_exec in E.
    destruct (Ascii.eqb_spec c "#") as [-> | Hne];
      apply ColorFacts.exec_groups_some in E; destruct E as (E & Hl & Hx).
    + unfold Color.is_hash_hex in Hh. cbn [list_ascii_of_string] in Hh.
      rewrite E, list_ascii_of_string_of_list_ascii, Hl, Hx in Hh.
      discriminate Hh.
    + unfold Color.is_bare_hex in Hb.
      rewrite E, list_ascii_of_string_of_list_ascii, Hl, Hx in Hb.
      discriminate Hb.
  - intros c1 c2 c3 c4 c5 c6 Hx [-> | ->].
    + apply ColorFacts.hexToRgb_bare, Hx.
    + apply ColorFacts.hexToRgb_hash, Hx.
Qed.

Lemma hexToRgb_lenient_witness :
  Color.hexToRgb "#12345" = Color.mkRgb 0 0 0 /\
  Color.hexToRgb "#6EA8fe" = Color.mkRgb 110 168 254.
Proof.
  split.
  - apply (hexToRgb_lenient "#12345"); reflexivity.
  - apply (proj2 (proj2 (hexToRgb_lenient "#6EA8fe"))
             "6"%char "E"%char "A"%char "8"%char "f"%char "e"%char);
      [reflexivity | right; reflexivity].
Defined.

(** C8.  For a colour [h] made of [#] and six hex digits, converting to
    channels and back gives [h] in lower case: a leading [#] and two
    lower-case digits per channel. *)
Theorem rgbToHex_hexToRgb (c1 c2 c3 c4 c5 c6 : ascii) :
  forallb Color.is_hex [c1; c2; c3; c4; c5; c6] = true ->
  let h := String "#" (string_of_list_ascii [c1; c2; c3; c4; c5; c6]) in
  Color.rgbToHex (Color.r (Color.hexToRgb h)) (Color.g (Color.hexToRgb h))
    (Color.b (Color.hexToRgb h))
  = Color.lowercase h.
Proof.
  intros Hx h. subst h. rewrite (ColorFacts.hexToRgb_hash _ _ _ _ _ _ Hx).
  cbn [forallb] in Hx.
  repeat (apply andb_prop in Hx; destruct Hx as [? Hx]).
  cbn [Color.r Color.g Color.b]. unfold Color.rgbToHex.
  rewrite !ColorFacts.toHex_parseInt16 by assumption.
  reflexivity.
Qed.

Lemma rgbToHex_hexToRgb_witness :
  Color.rgbToHex (Color.r (Color.hexToRgb "#6EA8fe"))
    (Color.g (Color.hexToRgb "#6EA8fe")) (Color.b (Color.hexToRgb "#6EA8fe"))
  = "#6ea8fe"%string.
Proof.
  exact (rgbToHex_hexToRgb "6"%char "E"%char "A"%char "8"%char "f"%char
           "e"%char eq_refl).
Defined.

(** ** The capture session *)

Module SessionFacts.
Import Session.

Section Invariant.

Variable Math_sin : Q -> Q.

Lemma stopRecording_final (st : state) :
  rafRef (final (stopRecording st)) = None /\
  recording (final (stopRecording st)) = false /\
  recorder_active (final (stopRecording st)) = false.
Proof.
  unfold stopRecording, recorder_active. destruct st as [rc bu er pm cv rr ch rf stt].
  cbn. destruct rr as [[mt []] |]; cbn; auto.
Qed.

(** Whenever no frame is pending, the [recording] flag is down. *)
Lemma idle_not_recording (st : state) :
  reachable Math_sin st -> rafRef st = None -> recording st = false.
Proof.
  induction 1 as [c | s p st _ IH | st _ IH | s t h n st _ IH
                  | e st _ IH | st _ IH | mr rs st _ IH E].
  - reflexivity.
  - unfold startRecording. cbn [canvas set_blobUrl set_error].
    destruct (canvas st); [| exact IH].
    destruct (captureStream p); [exact IH |].
    destruct (newMediaRecorder p _); [reflexivity |].
    destruct (start p); [reflexivity | discriminate].
  - intros _. apply stopRecording_final.
  - unfold tick. cbn [canvas set_progressMs].
    destruct (canvas st); [| exact IH].
    destruct h; [| exact IH].
    destruct (Qlt_le_dec _ _); [discriminate |].
    intros _. apply stopRecording_final.
  - unfold ondataavailable. destruct e as [d |]; [| exact IH].
    destruct (0 <? size d)%nat; exact IH.
  - unfold onstop. destruct (recorderRef st); exact IH.
  - exact IH.
Qed.

End Invariant.

Lemma stopRecording_idle (st : state) :
  rafRef st = None -> recording st = false -> recorder_active st = false ->
  stopRecording st = mkOutcome st [] None.
Proof.
  destruct st as [rc bu er pm cv rr ch rf stt].
  unfold recorder_active, stopRecording. cbn. intros -> -> Hr.
  destruct rr as [[mt []] |]; try discriminate Hr; reflexivity.
Qed.

Lemma deliver_chunks (es : list (option blob)) (st : state) :
  chunksRef (deliver es st) = chunksRef st ++ nonempty es.
Proof.
  revert st. induction es as [| e es IH]; intros st.
  - cbn. symmetry. apply app_nil_r.
  - unfold deliver in *. cbn [fold_left]. rewrite IH.
    unfold nonempty, emitted, ondataavailable. cbn [flat_map].
    destruct e as [d |]; [| reflexivity].
    cbn [app filter].
    destruct (size d) as [| n]; cbn [Nat.ltb Nat.leb Nat.eqb negb];
      [reflexivity |].
    cbn [chunksRef set_chunksRef]. rewrite <- app_assoc. reflexivity.
Qed.

Lemma deliver_recorder (es : list (option blob)) (st : state) :
  recorderRef (deliver es st) = recorderRef st.
Proof.
  revert st. induction es as [| e es IH]; intros st; [reflexivity |].
  unfold deliver in *. cbn [fold_left]. rewrite IH.
  unfold ondataavailable. destruct e as [d |]; [| reflexivity].
  destruct (0 <? size d)%nat; reflexivity.
Qed.

Lemma nonempty_positive (es : list (option blob)) :
  Forall (fun d => (0 < size d)%nat) (nonempty es).
Proof.
  apply Forall_forall. intros d Hd. unfold nonempty in Hd.
  apply filter_In in Hd. destruct Hd as [_ Hd].
  destruct (size d); [discriminate Hd | lia].
Qed.

Lemma concat_nonempty (es : list (option blob)) :
  List.concat (map data (nonempty es)) = List.concat (map data (emitted es)).
Proof.
  unfold nonempty. induction (emitted es) as [| d ds IH]; [reflexivity |].
  cbn [filter]. destruct (size d =? 0)%nat eqn:E; cbn [negb map List.concat].
  - apply Nat.eqb_eq in E. unfold size in E.
    apply length_zero_iff_nil in E. rewrite E. exact IH.
  - f_equal. exact IH.
Qed.

Lemma started_state (s : Settings) (p : platform) (st : state) :
  In (RecorderStart 100) (effects (startRecording s p st)) ->
  chunksRef (final (startRecording s p st)) = [] /\
  exists mt, recorderRef (final (startRecording s p st))
             = Some (mkRecorder mt Recording).
Proof.
  unfold startRecording. cbn [canvas set_blobUrl set_error].
  destruct (canvas st); [| intros []].
  destruct (captureStream p); [intros [] |].
  destruct (newMediaRecorder p _) as [e | mt]; [intros [] |].
  destruct (start p); [intros [] |].
  intros _. split; [reflexivity | exists mt; reflexivity].
Qed.

End SessionFacts.

(** C9.  [stopRecording] called on a session that is not running (no
    frame pending, recorder absent or inactive) returns the very state it
    was called on and makes no platform call; in particular a second
    consecutive call of [stopRecording] changes nothing. *)
Theorem stopRecording_idempotent (Math_sin : Q -> Q) :
  (forall st : Session.state,
     Session.reachable Math_sin st ->
     Session.rafRef st = None -> Session.recorder_active st = false ->
     Session.stopRecording st = Session.mkOutcome st [] None) /\
  (forall st : Session.state,
     Session.stopRecording (Session.final (Session.stopRecording st))
     = Session.mkOutcome (Session.final (Session.stopRecording st)) [] None).
Proof.
  split.
  - intros st Hr Hf Ha. apply SessionFacts.stopRecording_idle; try assumption.
    apply (SessionFacts.idle_not_recording Math_sin); assumption.
  - intros st.
    destruct (SessionFacts.stopRecording_final st) as (Hf & Hrec & Ha).
    apply SessionFacts.stopRecording_idle; assumption.
Qed.

Lemma stopRecording_idempotent_witness :
  let st := Session.final
              (Session.stopRecording
                 (Session.final
                    (Session.startRecording DEFAULTS Session.platform_ok
                       (Session.mounted (Some Canvas.initial))))) in
  Session.stopRecording st = Session.mkOutcome st [] None.
Proof.
  intros st.
  apply (proj1 (stopRecording_idempotent sin0)).
  - apply Session.R_stop, Session.R_start, Session.R_mounted.
  - reflexivity.
  - reflexivity.
Defined.

(** C10.  Once the recorder has been started, whatever events it
    delivers, the chunk buffer holds exactly the fragments of non-zero
    size, in emission order; and the blob assembled by [onstop] is their
    concatenation, which is also the concatenation of all emitted
    fragments. *)
Theorem chunks_are_nonempty_fragments (s : Settings) (p : Session.platform)
    (st : Session.state) (es : list (option Session.blob)) :
  In (Session.RecorderStart 100)
     (Session.effects (Session.startRecording s p st)) ->
  let st1 := Session.deliver es
               (Session.final (Session.startRecording s p st)) in
  Session.chunksRef st1 = Session.nonempty es /\
  Forall (fun d => (0 < Session.size d)%nat) (Session.chunksRef st1) /\
  option_map Session.data (Session.blobUrl (Session.onstop st1))
  = Some (List.concat (map Session.data (Session.nonempty es))) /\
  List.concat (map Session.data (Session.nonempty es))
  = List.concat (map Session.data (Session.emitted es)).
Proof.
  intros Hs st1.
  destruct (SessionFacts.started_state s p st Hs) as (Hc & mt & Hr).
  assert (E : Session.chunksRef st1 = Session.nonempty es).
  { subst st1. rewrite SessionFacts.deliver_chunks, Hc. reflexivity. }
  split; [exact E | split; [| split]].
  - rewrite E. apply SessionFacts.nonempty_positive.
  - unfold Session.onstop. subst st1.
    rewrite SessionFacts.deliver_recorder, Hr.
    cbn [Session.blobUrl Session.set_blobUrl option_map Session.data
         Session.newBlob].
    rewrite E. reflexivity.
  - apply SessionFacts.concat_nonempty.
Qed.

Lemma chunks_are_nonempty_fragments_witness :
  let es := [Some (Session.mkBlob [Byte.x1a; Byte.x45] "video/webm");
             Some (Session.mkBlob [] "video/webm");
             None;
             Some (Session.mkBlob [Byte.xdf] "video/webm")] in
  let st1 := Session.deliver es
               (Session.final
                  (Session.startRecording DEFAULTS Session.platform_ok
                     (Session.mounted (Some Canvas.initial)))) in
  Session.chunksRef st1
  = [Session.mkBlob [Byte.x1a; Byte.x45] "video/webm";
     Session.mkBlob [Byte.xdf] "video/webm"] /\
  option_map Session.data (Session.blobUrl (Session.onstop st1))
  = Some [Byte.x1a; Byte.x45; Byte.xdf].
Proof.
  intros es st1.
  destruct (chunks_are_nonempty_fragments DEFAULTS Session.platform_ok
              (Session.mounted (Some Canvas.initial)) es)
    as (H1 & _ & H3 & _).
  - left. reflexivity.
  - split; [exact H1 | exact H3].
Defined.

(** The path the session takes when the recorder cannot be set up inside
    the [try] block: the description of the thrown value is stored, the
    [recording] flag ends false, nothing is scheduled and nothing escapes. *)
Lemma startRecording_encoder_failure_recorded (s : Settings)
    (p : Session.platform) (st : Session.state) (c : Canvas.ctx)
    (e : Session.thrown) :
  Session.canvas st = Some c ->
  Session.captureStream p = None ->
  (Session.newMediaRecorder p
     (Session.recorderOptions (Session.chooseMimeType p)) = inl e \/
   (exists mt, Session.newMediaRecorder p
                 (Session.recorderOptions (Session.chooseMimeType p)) = inr mt)
   /\ Session.start p = Some e) ->
  let o := Session.startRecording s p st in
  Session.raised o = None /\
  Session.error (Session.final o) = Some (Session.describe e) /\
  Session.recording (Session.final o) = false /\
  Session.rafRef (Session.final o) = Session.rafRef st /\
  Session.effects o = [].
Proof.
  intros Hc Hs He o. subst o. unfold Session.startRecording.
  cbn [Session.canvas Session.set_blobUrl Session.set_error].
  rewrite Hc, Hs.
  destruct He as [-> | [[mt ->] ->]]; repeat split.
Qed.

(** C3, at the failing input.  When [canvas.captureStream] throws, the
    exception escapes [startRecording]: no error description is stored.
    (The [recording] flag is left false and no frame is requested.) *)
Theorem startRecording_stream_failure_escapes :
  let o := Session.startRecording DEFAULTS Session.platform_no_stream
             (Session.mounted (Some Canvas.initial)) in
  Session.raised o
  = Some (Session.mkThrown
            (Some "canvas.captureStream is not a function"%string)
            "TypeError: canvas.captureStream is not a function") /\
  Session.error (Session.final o) = None /\
  Session.recording (Session.final o) = false /\
  Session.rafRef (Session.final o) = None /\
  Session.effects o = [].
Proof. cbv zeta. repeat split. Qed.

(** The same for every settings value, platform and state in which the
    canvas is mounted. *)
Lemma startRecording_stream_failure_uncaught (s : Settings)
    (p : Session.platform) (st : Session.state) (c : Canvas.ctx)
    (e : Session.thrown) :
  Session.canvas st = Some c ->
  Session.captureStream p = Some e ->
  Session.startRecording s p st
  = Session.mkOutcome (Session.set_blobUrl None (Session.set_error None st))
      [] (Some e).
Proof.
  intros Hc Hs. unfold Session.startRecording.
  cbn [Session.canvas Session.set_blobUrl Session.set_error].
  rewrite Hc, Hs. reflexivity.
Qed.

Example startRecording_encoder_failure_sample :
  let o := Session.startRecording DEFAULTS Session.platform_no_recorder
             (Session.mounted (Some Canvas.initial)) in
  Session.error (Session.final o) = Some "MediaRecorder unavailable"%string /\
  Session.recording (Session.final o) = false /\
  Session.effects o = [] /\ Session.raised o = None.
Proof. cbv zeta. repeat split. Qed.

(** ** The frame renderer *)

Module RenderFacts.
Import Canvas.

Section Frames.

Variable Math_sin : Q -> Q.

(** The loop over [x] only extends the current path, by segments that
    depend on the transformation alone. *)
Lemma wave_points_frame (y phase amplitude : Q) (xs : list Q) :
  exists F : xform -> list seg,
  forall c : ctx,
    for_each xs (wavePoint Math_sin y phase amplitude) c
    = mkCtx (cur c) (stack c) (path c ++ F (transform (cur c))) (surface c).
Proof.
  induction xs as [| x xs [F IH]].
  - exists (fun _ => []). intros [d st p sf]. cbn. rewrite app_nil_r.
    reflexivity.
  - exists (fun t =>
              (if Qeq_bool x 0
               then MoveTo (tx t + sx t * 0)
                      (ty t + sy t * (y + Math_sin (phase + x * 0.01) * amplitude))
               else LineTo (tx t + sx t * x)
                      (ty t + sy t * (y + Math_sin (phase + x * 0.01) * amplitude)))
              :: F t).
    intros [d st p sf]. unfold for_each in *. cbn [fold_left].
    rewrite IH. unfold wavePoint, moveTo, lineTo, add_seg, dev.
    destruct (Qeq_bool x 0); cbn [cur stack path surface];
      rewrite <- app_assoc; reflexivity.
Qed.

(** One wave: the path is replaced, the stroke attributes are set, and
    one stroke is painted with the alpha and transformation in force. *)
Lemma drawWave_frame (w h tMs i : Q) :
  0 < 2 + i ->
  exists F : xform -> list seg,
  forall c : ctx,
    drawWave Math_sin w h tMs i c
    = mkCtx
        (mkDstate (fillStyle (cur c)) (withAlpha "#6ea8fe" (0.18 - i * 0.04))
           (2 + i) (globalAlpha (cur c)) (font (cur c)) (textAlign (cur c))
           (textBaseline (cur c)) (transform (cur c)))
        (stack c) (F (transform (cur c)))
        (surface c ++
         [PStroke (F (transform (cur c)))
            (withAlpha "#6ea8fe" (0.18 - i * 0.04)) (2 + i)
            (globalAlpha (cur c)) (transform (cur c))]).
Proof.
  intros Hi. unfold drawWave.
  destruct (wave_points_frame
              (h * (0.2 + i * 0.2) + Math_sin (tMs / 1000 * (0.2 + i * 0.05)) * 10)
              (tMs / 1000 * (0.2 + i * 0.05)) (14 + i * 6) (wave_xs w))
    as [F HF].
  exists F. intros [d st p sf].
  unfold seq, beginPath, set_strokeStyle, set_lineWidth, stroke, paint,
    with_cur.
  rewrite HF. cbn [cur stack path surface fillStyle strokeStyle lineWidth
                   globalAlpha font textAlign textBaseline transform app].
  destruct (Qlt_le_dec 0 (2 + i)) as [_ | Hle];
    [reflexivity | exfalso; apply (Qlt_not_le _ _ Hi Hle)].
Qed.

(** The loop of [drawLines] only paints, with the attributes in force. *)
Lemma drawLine_loop_frame (lh : Q) (ils : list (nat * string)) :
  exists F : dstate -> list prim,
  forall c : ctx,
    for_each ils (drawLine lh) c
    = mkCtx (cur c) (stack c) (path c) (surface c ++ F (cur c)).
Proof.
  induction ils as [| [i line] ils [F IH]].
  - exists (fun _ => []). intros [d st p sf]. cbn. rewrite app_nil_r.
    reflexivity.
  - exists (fun d =>
              PFillText line 0 (inject_Z (Z.of_nat i) * lh) (fillStyle d)
                (font d) (textAlign d) (textBaseline d) (globalAlpha d)
                (transform d) :: F d).
    intros [d st p sf]. unfold for_each in *. cbn [fold_left].
    rewrite IH. unfold drawLine, fillText, paint.
    cbn [cur stack path surface]. rewrite <- app_assoc. reflexivity.
Qed.

(** [drawLines] leaves the attributes, the stack and the path as it found
    them: it only paints. *)
Lemma drawLines_frame (lines : list string) (x y lh bh sc al : Q) :
  exists F : dstate -> list prim,
  forall c : ctx,
    drawLines lines x y lh bh sc al c
    = mkCtx (cur c) (stack c) (path c) (surface c ++ F (cur c)).
Proof.
  destruct (drawLine_loop_frame lh
              (combine (List.seq 0 (List.length lines)) lines)) as [F HF].
  eexists (fun d => F (mkDstate (fillStyle d) (strokeStyle d) (lineWidth d)
                         (if valid_alpha al then al else globalAlpha d)
                         (font d) (textAlign d) (textBaseline d)
                         (mkXform (sx (transform d) * sc) (sy (transform d) * sc)
                            (tx (transform d) + sx (transform d) * x)
                            (ty (transform d)
                             + sy (transform d) * (y - bh / 2 + lh / 2))))).
  intros [d st p sf].
  unfold drawLines, seq, save, translate, scale, set_globalAlpha,
    set_transform, with_cur, restore.
  cbn [cur stack path surface fillStyle strokeStyle lineWidth
       globalAlpha font textAlign textBaseline transform sx sy tx ty].
  rewrite HF.
  cbn [cur stack path surface fillStyle strokeStyle lineWidth
       globalAlpha font textAlign textBaseline transform sx sy tx ty].
  reflexivity.
Qed.

Ltac project_ctx :=
  cbn [cur stack path surface fillStyle strokeStyle lineWidth
       globalAlpha font textAlign textBaseline transform sx sy tx ty].

(** Runs the innermost command that is applied to a context given by its
    four components. *)
Ltac prim_step :=
  match goal with
  | |- context [?f (mkCtx ?d ?st ?p ?sf)] =>
      let t := constr:(f (mkCtx d st p sf)) in
      let v := eval cbv beta iota zeta delta
                 [clearRect fillRect fillText paint with_cur set_fillStyle
                  set_strokeStyle set_textAlign set_textBaseline set_font
                  set_globalAlpha set_transform save restore translate scale
                  cur stack path surface fillStyle strokeStyle lineWidth
                  globalAlpha font textAlign textBaseline transform
                  sx sy tx ty] in t in
      progress (change t with v)
  end.

(** Uses a frame equation [H] for a loop or a call applied to such a
    context. *)
Ltac frame_step H :=
  match goal with
  | |- context [drawWave _ _ _ _ _ (mkCtx ?d ?st ?p ?sf)] =>
      rewrite (H (mkCtx d st p sf)); project_ctx
  | |- context [drawLines _ _ _ _ _ _ _ (mkCtx ?d ?st ?p ?sf)] =>
      rewrite (H (mkCtx d st p sf)); project_ctx
  end.

(** The shape of a whole frame.  What [drawFrame] paints is appended to
    the surface and is a function [G] of the alpha and the transformation
    it is entered with, and of nothing else in the context; it leaves the
    alpha, the transformation and the stack as they were.  Unless the
    animation is [typewriter], the painting ends with the progress bar. *)
Lemma drawFrame_frame (s : Settings) (tMs : Q) :
  exists (G : Q -> xform -> list prim) (D : Q -> xform -> dstate)
         (P : xform -> list seg),
    (forall ga tr, globalAlpha (D ga tr) = ga /\ transform (D ga tr) = tr) /\
    (forall c : ctx,
       drawFrame Math_sin s tMs c
       = mkCtx (D (globalAlpha (cur c)) (transform (cur c))) (stack c)
           (P (transform (cur c)))
           (surface c ++ G (globalAlpha (cur c)) (transform (cur c)))) /\
    (animation s <> typewriter ->
     forall ga tr, exists pre : list prim,
       G ga tr =
       pre ++
       [PFillRect 24 (height s - 24 - 6) (width s - 24 * 2) 6
          (CssRgba 110 168 254 0.35) ga tr;
        PFillRect 24 (height s - 24 - 6)
          (Math_floor ((width s - 24 * 2) * progress s tMs)) 6
          (CssColor "#6ea8fe") ga tr]).
Proof.
  destruct (drawWave_frame (width s) (height s) tMs 0) as [F0 H0];
    [reflexivity |].
  destruct (drawWave_frame (width s) (height s) tMs 1) as [F1 H1];
    [reflexivity |].
  destruct (drawWave_frame (width s) (height s) tMs 2) as [F2 H2];
    [reflexivity |].
  assert (Hbar : withAlpha "#6ea8fe" 0.35 = CssRgba 110 168 254 0.35)
    by reflexivity.
  unfold drawFrame.
  destruct (animation s) eqn:Ea.
  4: {
    destruct (drawLines_frame
                (split_lines (visible (text s) (progress s tMs)))
                (width s / 2) (height s / 2 + 0) (fontSize s * 1.3)
                (fontSize s * 1.3
                 * inject_Z (Z.of_nat (List.length (split_lines (text s)))))
                1 1) as [FL HL].
    do 3 eexists. split; [| split].
    2: { intros [[fs ss lw ga f ta tb tr] stk pth srf].
         etransitivity.
         { unfold seq, for_each. cbn [fold_left].
           repeat prim_step.
           frame_step H0. frame_step H1. frame_step H2.
           repeat prim_step.
           frame_step HL.
           rewrite <- !app_assoc. cbn [app].
           reflexivity. }
         project_ctx. reflexivity. }
    - intros ga tr. split; reflexivity.
    - intros H. contradiction.
  }
  all: destruct (pose Math_sin s tMs) as [[alpha yOffset] scale] eqn:Ep;
    destruct (drawLines_frame (split_lines (text s)) 0 0 (fontSize s * 1.3)
                (fontSize s * 1.3
                 * inject_Z (Z.of_nat (List.length (split_lines (text s)))))
                1 1) as [FL HL];
    do 3 eexists; (split; [| split]);
    [ | intros [[fs ss lw ga f ta tb tr] stk pth srf];
        etransitivity;
        [ unfold drawProgressBar, seq, for_each; cbn [fold_left];
          repeat prim_step;
          frame_step H0; frame_step H1; frame_step H2;
          repeat prim_step;
          frame_step HL;
          repeat prim_step;
          rewrite Hbar, <- !app_assoc; cbn [app];
          reflexivity
        | project_ctx; reflexivity ]
      | ];
    [ intros ga tr; split; reflexivity
    | intros _ ga tr; cbv beta;
      match goal with
      | |- exists pre, ?a :: ?b :: ?c :: ?d :: ?e :: (?l ++ _) = _ =>
          exists (a :: b :: c :: d :: e :: l)
      end; reflexivity ].
Qed.

(** The loop of [drawLines], with what it paints spelled out. *)
Lemma drawLine_loop_explicit (lh : Q) (ils : list (nat * string)) (c : ctx) :
  for_each ils (drawLine lh) c
  = mkCtx (cur c) (stack c) (path c)
      (surface c ++ map (painted_line lh (cur c)) ils).
Proof.
  revert c. induction ils as [| [i line] ils IH]; intros [d st p sf].
  - cbn. rewrite app_nil_r. reflexivity.
  - unfold for_each in *. cbn [fold_left]. rewrite IH.
    unfold drawLine, fillText, paint, painted_line.
    cbn [cur stack path surface map fst snd].
    rewrite <- app_assoc. reflexivity.
Qed.

(** [drawLines], with what it paints spelled out. *)
Lemma drawLines_explicit (lines : list string) (x y lh bh sc al : Q)
    (c : ctx) :
  drawLines lines x y lh bh sc al c
  = mkCtx (cur c) (stack c) (path c)
      (surface c ++
       map (painted_line lh (lines_dstate x y lh bh sc al (cur c)))
         (combine (List.seq 0 (List.length lines)) lines)).
Proof.
  destruct c as [d st p sf].
  unfold drawLines, seq, save, translate, scale, set_globalAlpha,
    set_transform, with_cur, restore.
  project_ctx. rewrite drawLine_loop_explicit. project_ctx.
  reflexivity.
Qed.

(** A whole frame, with what it paints spelled out up to the paths of the
    three waves and the attributes [T] the text is painted with. *)
Lemma drawFrame_shape (s : Settings) (tMs : Q) :
  exists (F0 F1 F2 : xform -> list seg) (T : Q -> xform -> dstate),
    (forall ga tr,
       globalAlpha (T ga tr) = 1 /\
       fillStyle (T ga tr) = CssColor (textColor s) /\
       font (T ga tr) = Font600 (fontSize s) /\
       textAlign (T ga tr) = "center"%string /\
       textBaseline (T ga tr) = "middle"%string) /\
    (forall c : ctx,
       surface (drawFrame Math_sin s tMs c)
       = surface c ++
         [PClearRect 0 0 (width s) (height s) (transform (cur c));
          PFillRect 0 0 (width s) (height s)
            (LinearGradient 0 0 0 (height s)
               [(0, background s); (1, Color.shade (background s) (-(12)))])
            (globalAlpha (cur c)) (transform (cur c));
          PStroke (F0 (transform (cur c)))
            (withAlpha "#6ea8fe" (0.18 - 0 * 0.04)) (2 + 0)
            (globalAlpha (cur c)) (transform (cur c));
          PStroke (F1 (transform (cur c)))
            (withAlpha "#6ea8fe" (0.18 - 1 * 0.04)) (2 + 1)
            (globalAlpha (cur c)) (transform (cur c));
          PStroke (F2 (transform (cur c)))
            (withAlpha "#6ea8fe" (0.18 - 2 * 0.04)) (2 + 2)
            (globalAlpha (cur c)) (transform (cur c))] ++
         map (painted_line (fontSize s * 1.3)
                (T (globalAlpha (cur c)) (transform (cur c))))
           (combine (List.seq 0 (List.length (frame_lines s tMs)))
              (frame_lines s tMs)) ++
         frame_bar s tMs (globalAlpha (cur c)) (transform (cur c))).
Proof.
  destruct (drawWave_frame (width s) (height s) tMs 0) as [F0 H0];
    [reflexivity |].
  destruct (drawWave_frame (width s) (height s) tMs 1) as [F1 H1];
    [reflexivity |].
  destruct (drawWave_frame (width s) (height s) tMs 2) as [F2 H2];
    [reflexivity |].
  assert (Hbar : withAlpha "#6ea8fe" 0.35 = CssRgba 110 168 254 0.35)
    by reflexivity.
  exists F0, F1, F2.
  unfold drawFrame, frame_lines, frame_bar, progress_bar.
  destruct (animation s) eqn:Ea.
  4: {
    pose proof (drawLines_explicit
                  (split_lines (visible (text s) (progress s tMs)))
                  (width s / 2) (height s / 2 + 0) (fontSize s * 1.3)
                  (fontSize s * 1.3
                   * inject_Z (Z.of_nat (List.length (split_lines (text s)))))
                  1 1) as HL.
    eexists. split.
    2: { intros [[fs ss lw ga f ta tb tr] stk pth srf].
         etransitivity.
         { apply f_equal. unfold seq, for_each. cbn [fold_left].
           repeat prim_step.
           frame_step H0. frame_step H1. frame_step H2.
           repeat prim_step.
           frame_step HL.
           rewrite <- !app_assoc. cbn [app].
           reflexivity. }
         project_ctx. rewrite app_nil_r. reflexivity. }
    intros ga tr. repeat split.
  }
  all: destruct (pose Math_sin s tMs) as [[alpha yOffset] scale] eqn:Ep;
    pose proof (drawLines_explicit (split_lines (text s)) 0 0
                  (fontSize s * 1.3)
                  (fontSize s * 1.3
                   * inject_Z (Z.of_nat (List.length (split_lines (text s)))))
                  1 1) as HL;
    eexists; split;
    [ | intros [[fs ss lw ga f ta tb tr] stk pth srf];
        etransitivity;
        [ apply f_equal;
          unfold drawProgressBar, seq, for_each; cbn [fold_left];
          repeat prim_step;
          frame_step H0; frame_step H1; frame_step H2;
          repeat prim_step;
          frame_step HL;
          repeat prim_step;
          rewrite Hbar, <- !app_assoc; cbn [app];
          reflexivity
        | project_ctx; reflexivity ] ];
    intros ga tr; repeat split.
Qed.

End Frames.

End RenderFacts.

Lemma last_painted_eq (c : Canvas.ctx) :
  last_painted c
  = last (Canvas.surface c) (Canvas.PClearRect 0 0 0 0 Canvas.identity).
Proof. reflexivity. Qed.

Lemma last_snoc2 {A} (pre : list A) (a b d : A) :
  last (pre ++ [a; b]) d = b.
Proof.
  change (pre ++ [a; b]) with (pre ++ [a] ++ [b]).
  rewrite app_assoc. apply last_last.
Qed.

(** What a frame paints is determined by the settings, the time, and the
    alpha and transformation of the context it is painted on. *)
Lemma drawFrame_surface_agree (Math_sin : Q -> Q) (s : Settings) (tMs : Q)
    (c1 c2 : Canvas.ctx) :
  Canvas.surface c1 = Canvas.surface c2 ->
  Canvas.globalAlpha (Canvas.cur c1) = Canvas.globalAlpha (Canvas.cur c2) ->
  Canvas.transform (Canvas.cur c1) = Canvas.transform (Canvas.cur c2) ->
  Canvas.surface (drawFrame Math_sin s tMs c1)
  = Canvas.surface (drawFrame Math_sin s tMs c2).
Proof.
  intros Hs Ha Ht.
  destruct (RenderFacts.drawFrame_frame Math_sin s tMs)
    as (G & D & P & _ & HG & _).
  rewrite (HG c1), (HG c2). cbn [Canvas.surface].
  rewrite Hs, Ha, Ht. reflexivity.
Qed.

(** A frame leaves the alpha, the transformation and the stack of the
    context as it found them. *)
Lemma drawFrame_preserves (Math_sin : Q -> Q) (s : Settings) (tMs : Q)
    (c : Canvas.ctx) :
  Canvas.globalAlpha (Canvas.cur (drawFrame Math_sin s tMs c))
  = Canvas.globalAlpha (Canvas.cur c) /\
  Canvas.transform (Canvas.cur (drawFrame Math_sin s tMs c))
  = Canvas.transform (Canvas.cur c) /\
  Canvas.stack (drawFrame Math_sin s tMs c) = Canvas.stack c.
Proof.
  destruct (RenderFacts.drawFrame_frame Math_sin s tMs)
    as (G & D & P & HD & HG & _).
  rewrite (HG c). cbn [Canvas.cur Canvas.stack].
  destruct (HD (Canvas.globalAlpha (Canvas.cur c))
              (Canvas.transform (Canvas.cur c))) as [Ha Ht].
  auto.
Qed.

(** C2.  For fixed settings and elapsed time, two runs of the renderer on
    freshly cleared surfaces paint the same sequence of primitives with the
    same attributes, whatever else the two contexts carry; in particular a
    second run on the context the first run left, over the wiped surface,
    repeats the first frame. *)
Theorem drawFrame_deterministic (Math_sin : Q -> Q) (s : Settings) (tMs : Q)
    (c1 c2 : Canvas.ctx) :
  fresh c1 -> fresh c2 ->
  Canvas.surface (drawFrame Math_sin s tMs c1)
  = Canvas.surface (drawFrame Math_sin s tMs c2) /\
  Canvas.surface
    (drawFrame Math_sin s tMs (wipe (drawFrame Math_sin s tMs c1)))
  = Canvas.surface (drawFrame Math_sin s tMs c1).
Proof.
  intros (S1 & A1 & T1) (S2 & A2 & T2). split.
  - apply drawFrame_surface_agree; congruence.
  - destruct (drawFrame_preserves Math_sin s tMs c1) as (Ha & Ht & _).
    apply drawFrame_surface_agree; unfold wipe; cbn [Canvas.surface Canvas.cur];
      congruence.
Qed.

Lemma drawFrame_deterministic_witness :
  Canvas.surface (drawFrame sin0 DEFAULTS 3000 Canvas.initial)
  = Canvas.surface (drawFrame sin0 DEFAULTS 3000 used_ctx).
Proof.
  assert (H1 : fresh Canvas.initial) by (repeat split; reflexivity).
  assert (H2 : fresh used_ctx) by (repeat split; reflexivity).
  exact (proj1 (drawFrame_deterministic sin0 DEFAULTS 3000 Canvas.initial
                  used_ctx H1 H2)).
Defined.





(** With the [typewriter] animation the renderer returns right after the
    revealed text: the primitive painted last is a line of text, and no
    progress bar ends the frame. *)
Lemma typewriter_frame_ends_with_text :
  is_fillText
    (last_painted (drawFrame sin0 typewriter_defaults 3000 Canvas.initial))
  = true /\
  forall w : Q,
    ~ ends_with_bar typewriter_defaults w Canvas.initial
        (drawFrame sin0 typewriter_defaults 3000 Canvas.initial).
Proof.
  assert (E : is_fillText
                (last_painted
                   (drawFrame sin0 typewriter_defaults 3000 Canvas.initial))
              = true) by (vm_compute; reflexivity).
  split; [exact E |].
  intros w (pre & w' & H & _).
  rewrite last_painted_eq, H in E.
  rewrite (last_snoc2 pre) in E. discriminate E.
Qed.

(** * Further properties of the code *)

(** ** [clamp] *)

(** X1.  [clamp] returns a value between the bounds when they are ordered,
    returns its argument (up to the equality of rationals) when that lies
    between them, is idempotent, and returns [min] when the bounds are
    given in the wrong order. *)
Theorem clamp_laws (n lo hi : Q) :
  (lo <= hi -> lo <= clamp n lo hi <= hi) /\
  (lo <= n <= hi -> clamp n lo hi == n) /\
  clamp (clamp n lo hi) lo hi == clamp n lo hi /\
  (hi < lo -> clamp n lo hi == lo).
Proof.
  split; [apply clamp_bounds | split; [| split]].
  - intros [H1 H2]. unfold clamp.
    rewrite (Q.min_r hi n H2). apply Q.max_r, H1.
  - unfold clamp.
    destruct (Q.max_spec_le lo (Qmin hi n)) as [[H E] | [H E]]; rewrite E.
    + rewrite (Q.min_r hi (Qmin hi n)) by apply Q.le_min_l.
      exact E.
    + destruct (Q.min_spec_le hi lo) as [[H' E'] | [H' E']]; rewrite E'.
      * apply Q.max_l, H'.
      * apply Q.max_l, Qle_refl.
  - intros H. unfold clamp. apply Q.max_l.
    apply Qle_trans with hi; [apply Q.le_min_l | apply Qlt_le_weak, H].
Qed.

Lemma clamp_laws_witness :
  0 <= clamp 7 0 1 <= 1 /\ clamp 0.25 0 1 == 0.25 /\ clamp 0.5 1 0 == 1.
Proof.
  destruct (clamp_laws 7 0 1) as (H1 & _).
  destruct (clamp_laws 0.25 0 1) as (_ & H2 & _).
  destruct (clamp_laws 0.5 1 0) as (_ & _ & _ & H4).
  split; [apply H1; discriminate | split].
  - apply H2. split; discriminate.
  - apply H4. reflexivity.
Defined.

(** ** Colour helpers *)

Module ColorMore.
Import Color.

Lemma forall_byte (P : Z -> bool) :
  forallb P (map Z.of_nat (List.seq 0 256)) = true ->
  forall n : Z, (0 <= n <= 255)%Z -> P n = true.
Proof.
  intros H n Hn. rewrite forallb_forall in H. apply H.
  apply in_map_iff. exists (Z.to_nat n). split; [lia |].
  apply in_seq. lia.
Qed.

Lemma toHex_channel (n : Z) :
  (0 <= n <= 255)%Z ->
  exists a b : ascii,
    toHex n = String a (String b EmptyString) /\
    is_hex a = true /\ is_hex b = true /\ parseInt16 a b = n /\
    lower a = a /\ lower b = b.
Proof.
  intros Hn.
  assert (H : toHex_ok n = true).
  { revert n Hn. apply forall_byte. vm_compute. reflexivity. }
  unfold toHex_ok in H.
  destruct (toHex n) as [| a [| b [| c r]]]; try discriminate H.
  exists a, b.
  repeat (apply andb_prop in H; destruct H as [H ?]).
  repeat split; try assumption.
  - apply Z.eqb_eq. assumption.
  - apply Ascii.eqb_eq. assumption.
  - apply Ascii.eqb_eq. assumption.
Qed.

Lemma rgbToHex_channels (r g b : Z) :
  (0 <= r <= 255)%Z -> (0 <= g <= 255)%Z -> (0 <= b <= 255)%Z ->
  hexToRgb (rgbToHex r g b) = mkRgb r g b /\
  is_hash_hex (rgbToHex r g b) = true /\
  lowercase (rgbToHex r g b) = rgbToHex r g b.
Proof.
  intros Hr Hg Hb.
  destruct (toHex_channel r Hr) as (a1 & a2 & E1 & X1 & X2 & P1 & L1 & L2).
  destruct (toHex_channel g Hg) as (b1 & b2 & E2 & Y1 & Y2 & P2 & M1 & M2).
  destruct (toHex_channel b Hb) as (c1 & c2 & E3 & Z1 & Z2 & P3 & N1 & N2).
  unfold rgbToHex. rewrite E1, E2, E3. cbn [append].
  assert (Hx : forallb is_hex [a1; a2; b1; b2; c1; c2] = true).
  { cbn [forallb]. rewrite X1, X2, Y1, Y2, Z1, Z2. reflexivity. }
  split; [| split].
  - change (String "#" (String a1 (String a2 (String b1 (String b2
              (String c1 (String c2 EmptyString)))))))
      with (String "#" (string_of_list_ascii [a1; a2; b1; b2; c1; c2])).
    rewrite (ColorFacts.hexToRgb_hash _ _ _ _ _ _ Hx).
    rewrite P1, P2, P3. reflexivity.
  - unfold is_hash_hex. cbn [list_ascii_of_string List.length].
    rewrite Ascii.eqb_refl, Hx. reflexivity.
  - cbn [lowercase]. rewrite L1, L2, M1, M2, N1, N2. reflexivity.
Qed.

Lemma clampZ_range (n : Z) : (0 <= clampZ n 0 255 <= 255)%Z.
Proof. unfold clampZ. lia. Qed.

Lemma shade_unfold (hex : string) (percent : Q) :
  shade hex percent
  = rgbToHex
      (clampZ (Math_round (inject_Z (r (hexToRgb hex))
                           * ((100 + percent) / 100))) 0 255)
      (clampZ (Math_round (inject_Z (g (hexToRgb hex))
                           * ((100 + percent) / 100))) 0 255)
      (clampZ (Math_round (inject_Z (b (hexToRgb hex))
                           * ((100 + percent) / 100))) 0 255).
Proof. unfold shade. destruct (hexToRgb hex). reflexivity. Qed.

Lemma Qfloor_unique (x : Q) (z : Z) :
  inject_Z z <= x -> x < inject_Z (z + 1) -> Qfloor x = z.
Proof.
  intros H1 H2.
  pose proof (Qfloor_le x) as F1. pose proof (Qlt_floor x) as F2.
  assert (A : inject_Z z < inject_Z (Qfloor x + 1)) by
      (apply Qle_lt_trans with x; assumption).
  assert (B : inject_Z (Qfloor x) < inject_Z (z + 1)) by
      (apply Qle_lt_trans with x; assumption).
  rewrite <- Zlt_Qlt in A, B. lia.
Qed.

Lemma Math_round_Z (z : Z) (x : Q) : x == inject_Z z -> Math_round x = z.
Proof.
  intros E. unfold Math_round. apply Qfloor_unique.
  - rewrite E. lra.
  - rewrite E, inject_Z_plus. change (inject_Z 1) with 1. lra.
Qed.

Lemma Math_round_mono (x y : Q) : x <= y -> (Math_round x <= Math_round y)%Z.
Proof. intros H. unfold Math_round. apply Qfloor_resp_le. lra. Qed.

Lemma is_hex_lower (c : ascii) :
  is_hex (lower c) = is_hex c /\ hex_val (lower c) = hex_val c /\
  Ascii.eqb (lower c) "#" = Ascii.eqb c "#".
Proof.
  destruct c as [[] [] [] [] [] [] [] []]; vm_compute; repeat split.
Qed.

End ColorMore.

(** X2.  Channels in [0, 255] survive the trip through [rgbToHex] and
    [hexToRgb], and the string in between is a well-formed lower-case
    [#rrggbb] colour. *)
Theorem hexToRgb_rgbToHex (r g b : Z) :
  (0 <= r <= 255)%Z -> (0 <= g <= 255)%Z -> (0 <= b <= 255)%Z ->
  Color.hexToRgb (Color.rgbToHex r g b) = Color.mkRgb r g b /\
  Color.is_hash_hex (Color.rgbToHex r g b) = true /\
  Color.lowercase (Color.rgbToHex r g b) = Color.rgbToHex r g b.
Proof. apply ColorMore.rgbToHex_channels. Qed.

Lemma hexToRgb_rgbToHex_witness :
  Color.hexToRgb (Color.rgbToHex 0 15 255) = Color.mkRgb 0 15 255.
Proof.
  apply (hexToRgb_rgbToHex 0 15 255); lia.
Defined.

(** X3.  [hexToRgb] does not distinguish upper from lower case: a string
    and its lower-cased form give the same channels, whether the string is
    a well-formed colour or not. *)
Theorem hexToRgb_case_insensitive (hex : string) :
  Color.hexToRgb (Color.lowercase hex) = Color.hexToRgb hex.
Proof.
  assert (G : forall s, Color.exec_groups (Color.lowercase s)
                        = option_map (map Color.lower) (Color.exec_groups s)).
  { intros s.
    destruct s as [| c1 [| c2 [| c3 [| c4 [| c5 [| c6 [| c7 s]]]]]]];
      try reflexivity.
    cbn [Color.lowercase Color.exec_groups forallb].
    rewrite !(proj1 (ColorMore.is_hex_lower _)).
    destruct (Color.is_hex c1 && _)%bool; reflexivity. }
  assert (V : forall a b, Color.parseInt16 (Color.lower a) (Color.lower b)
                          = Color.parseInt16 a b).
  { intros a b. unfold Color.parseInt16.
    rewrite !(proj1 (proj2 (ColorMore.is_hex_lower _))). reflexivity. }
  unfold Color.hexToRgb, Color.regex_exec.
  destruct hex as [| c rest]; [reflexivity |].
  cbn [Color.lowercase].
  rewrite (proj2 (proj2 (ColorMore.is_hex_lower c))).
  change (String (Color.lower c) (Color.lowercase rest))
    with (Color.lowercase (String c rest)).
  rewrite !G.
  destruct (Ascii.eqb c "#");
    [destruct (Color.exec_groups rest) as [cs |]
    | destruct (Color.exec_groups (String c rest)) as [cs |]];
    try reflexivity;
    destruct cs as [| d1 [| d2 [| d3 [| d4 [| d5 [| d6 [| d7 cs]]]]]]];
    try reflexivity; cbn [option_map map]; rewrite !V; reflexivity.
Qed.

Module ShadeFacts.
Import Color.

Lemma hexToRgb_malformed (hex : string) :
  is_hash_hex hex = false -> is_bare_hex hex = false ->
  hexToRgb hex = mkRgb 0 0 0.
Proof.
  intros Hh Hb. unfold hexToRgb.
  destruct (regex_exec hex) as [cs |] eqn:E; [| reflexivity].
  exfalso. destruct hex as [| c rest]; [discriminate E |].
  unfold regex_exec in E.
  destruct (Ascii.eqb_spec c "#") as [-> | Hne];
    apply ColorFacts.exec_groups_some in E; destruct E as (E & Hl & Hx).
  - unfold is_hash_hex in Hh. cbn [list_ascii_of_string] in Hh.
    rewrite E, list_ascii_of_string_of_list_ascii, Hl, Hx in Hh.
    discriminate Hh.
  - unfold is_bare_hex in Hb.
    rewrite E, list_ascii_of_string_of_list_ascii, Hl, Hx in Hb.
    discriminate Hb.
Qed.

(** A channel scaled by a factor of at most [0] is clamped to [0]. *)
Lemma channel_black (c : Z) (t : Q) :
  (0 <= c)%Z -> t <= 0 -> clampZ (Math_round (inject_Z c * t)) 0 255 = 0%Z.
Proof.
  intros Hc Ht.
  assert (H : (Math_round (inject_Z c * t) <= 0)%Z).
  { rewrite <- (ColorMore.Math_round_Z 0 0) by reflexivity.
    apply ColorMore.Math_round_mono.
    assert (Hc' : 0 <= inject_Z c)
      by (change 0 with (inject_Z 0); rewrite <- Zle_Qle; exact Hc).
    rewrite <- (Qmult_0_r (inject_Z c)).
    rewrite (Qmult_comm (inject_Z c) t), (Qmult_comm (inject_Z c) 0).
    apply Qmult_le_compat_r; assumption. }
  unfold clampZ. lia.
Qed.

(** A channel scaled by a factor of at most [1] does not grow. *)
Lemma channel_darker (c : Z) (t : Q) :
  (0 <= c <= 255)%Z -> t <= 1 ->
  (0 <= clampZ (Math_round (inject_Z c * t)) 0 255 <= c)%Z.
Proof.
  intros Hc Ht.
  assert (H : (Math_round (inject_Z c * t) <= c)%Z).
  { rewrite <- (ColorMore.Math_round_Z c (inject_Z c)) at 2 by reflexivity.
    apply ColorMore.Math_round_mono.
    assert (Hc' : 0 <= inject_Z c)
      by (change 0 with (inject_Z 0); rewrite <- Zle_Qle; lia).
    rewrite <- (Qmult_1_r (inject_Z c)) at 2.
    rewrite (Qmult_comm (inject_Z c) t), (Qmult_comm (inject_Z c) 1).
    apply Qmult_le_compat_r; assumption. }
  unfold clampZ. lia.
Qed.

(** A channel scaled by a factor of at least [1] does not shrink. *)
Lemma channel_brighter (c : Z) (t : Q) :
  (0 <= c <= 255)%Z -> 1 <= t ->
  (c <= clampZ (Math_round (inject_Z c * t)) 0 255 <= 255)%Z.
Proof.
  intros Hc Ht.
  assert (H : (c <= Math_round (inject_Z c * t))%Z).
  { rewrite <- (ColorMore.Math_round_Z c (inject_Z c)) at 1 by reflexivity.
    apply ColorMore.Math_round_mono.
    assert (Hc' : 0 <= inject_Z c)
      by (change 0 with (inject_Z 0); rewrite <- Zle_Qle; lia).
    rewrite <- (Qmult_1_r (inject_Z c)) at 1.
    rewrite (Qmult_comm (inject_Z c) t), (Qmult_comm (inject_Z c) 1).
    apply Qmult_le_compat_r; assumption. }
  unfold clampZ. lia.
Qed.

Lemma hexToRgb_shade (hex : string) (percent : Q) :
  hexToRgb (shade hex percent)
  = mkRgb
      (clampZ (Math_round (inject_Z (r (hexToRgb hex)) * shade_factor percent))
         0 255)
      (clampZ (Math_round (inject_Z (g (hexToRgb hex)) * shade_factor percent))
         0 255)
      (clampZ (Math_round (inject_Z (b (hexToRgb hex)) * shade_factor percent))
         0 255).
Proof.
  rewrite ColorMore.shade_unfold.
  apply ColorMore.rgbToHex_channels; apply ColorMore.clampZ_range.
Qed.

Lemma factor_le_1 (p : Q) : p <= 0 -> shade_factor p <= 1.
Proof.
  intros H. unfold shade_factor. apply Qle_shift_div_r; [reflexivity | lra].
Qed.

Lemma factor_ge_1 (p : Q) : 0 <= p -> 1 <= shade_factor p.
Proof.
  intros H. unfold shade_factor. apply Qle_shift_div_l; [reflexivity | lra].
Qed.

Lemma factor_le_0 (p : Q) : p <= -(100) -> shade_factor p <= 0.
Proof.
  intros H. unfold shade_factor. apply Qle_shift_div_r; [reflexivity | lra].
Qed.

End ShadeFacts.

(** X4.  [shade] always returns a well-formed lower-case [#rrggbb] colour.
    It returns black, ["#000000"], for every string that is not a colour
    (whatever the percentage) and for every percentage of [-100] or
    less (whatever the colour). *)
Theorem shade_well_formed (hex : string) (percent : Q) :
  Color.is_hash_hex (Color.shade hex percent) = true /\
  Color.lowercase (Color.shade hex percent) = Color.shade hex percent /\
  (Color.is_hash_hex hex = false -> Color.is_bare_hex hex = false ->
   Color.shade hex percent = "#000000"%string) /\
  (percent <= -(100) -> Color.shade hex percent = "#000000"%string).
Proof.
  pose proof (ColorFacts.hexToRgb_range hex) as (Hr & Hg & Hb).
  rewrite ColorMore.shade_unfold.
  split; [| split; [| split]].
  - apply ColorMore.rgbToHex_channels; apply ColorMore.clampZ_range.
  - apply ColorMore.rgbToHex_channels; apply ColorMore.clampZ_range.
  - intros H1 H2. rewrite (ShadeFacts.hexToRgb_malformed hex H1 H2).
    cbn [Color.r Color.g Color.b].
    rewrite (ColorMore.Math_round_Z 0 (inject_Z 0 * ((100 + percent) / 100)))
      by (change (inject_Z 0) with 0; apply Qmult_0_l).
    reflexivity.
  - intros Hp. pose proof (ShadeFacts.factor_le_0 percent Hp) as Ht.
    unfold shade_factor in Ht.
    rewrite !ShadeFacts.channel_black by (assumption || lia).
    reflexivity.
Qed.

Lemma shade_well_formed_witness :
  Color.shade "not a colour" 30 = "#000000"%string /\
  Color.shade "#6ea8fe" (-(150)) = "#000000"%string.
Proof.
  split.
  - apply (proj1 (proj2 (proj2 (shade_well_formed "not a colour" 30))));
      reflexivity.
  - apply (proj2 (proj2 (proj2 (shade_well_formed "#6ea8fe" (-(150)))))).
    discriminate.
Defined.

(** X5.  [shade] with a percentage of [0] or less darkens: every channel
    of the result is at most the channel of the input colour.  With a
    percentage of [0] or more it brightens: every channel is at least the
    channel of the input, and at most [255]. *)
Theorem shade_direction (hex : string) (percent : Q) :
  let c := Color.hexToRgb hex in
  let c' := Color.hexToRgb (Color.shade hex percent) in
  (percent <= 0 ->
   (0 <= Color.r c' <= Color.r c)%Z /\ (0 <= Color.g c' <= Color.g c)%Z /\
   (0 <= Color.b c' <= Color.b c)%Z) /\
  (0 <= percent ->
   (Color.r c <= Color.r c' <= 255)%Z /\ (Color.g c <= Color.g c' <= 255)%Z /\
   (Color.b c <= Color.b c' <= 255)%Z).
Proof.
  intros c c'. subst c c'. rewrite ShadeFacts.hexToRgb_shade.
  pose proof (ColorFacts.hexToRgb_range hex) as (Hr & Hg & Hb).
  cbn [Color.r Color.g Color.b]. split; intros Hp.
  - pose proof (ShadeFacts.factor_le_1 percent Hp).
    repeat split; apply ShadeFacts.channel_darker; assumption.
  - pose proof (ShadeFacts.factor_ge_1 percent Hp).
    repeat split; apply ShadeFacts.channel_brighter; assumption.
Qed.

Lemma shade_direction_witness :
  (Color.r (Color.hexToRgb (Color.shade "#0c1326" (-(12)))) <= 12)%Z /\
  (254 <= Color.b (Color.hexToRgb (Color.shade "#6ea8fe" 40)))%Z.
Proof.
  split.
  - apply (proj1 (shade_direction "#0c1326" (-(12)))). discriminate.
  - apply (proj2 (shade_direction "#6ea8fe" 40)). discriminate.
Defined.

(** X6.  [shade] with a percentage of [0] gives back a well-formed colour
    unchanged, up to lower-casing and to the [#] it always prints. *)
Theorem shade_zero (c1 c2 c3 c4 c5 c6 : ascii) :
  forallb Color.is_hex [c1; c2; c3; c4; c5; c6] = true ->
  let digits := string_of_list_ascii [c1; c2; c3; c4; c5; c6] in
  Color.shade (String "#" digits) 0 = Color.lowercase (String "#" digits) /\
  Color.shade digits 0 = Color.lowercase (String "#" digits).
Proof.
  intros Hx digits. subst digits.
  assert (K : forall c : Z, (0 <= c <= 255)%Z ->
            Color.clampZ (Math_round (inject_Z c * ((100 + 0) / 100))) 0 255
            = c).
  { intros c Hc. rewrite (ColorMore.Math_round_Z c).
    - unfold Color.clampZ. lia.
    - field. }
  rewrite !ColorMore.shade_unfold.
  rewrite (ColorFacts.hexToRgb_hash _ _ _ _ _ _ Hx),
    (ColorFacts.hexToRgb_bare _ _ _ _ _ _ Hx).
  cbn [Color.r Color.g Color.b].
  rewrite !K by apply ColorFacts.parseInt16_range.
  cbn [forallb] in Hx.
  repeat (apply andb_prop in Hx; destruct Hx as [? Hx]).
  unfold Color.rgbToHex.
  rewrite !ColorFacts.toHex_parseInt16 by assumption.
  split; reflexivity.
Qed.

Lemma shade_zero_witness :
  Color.shade "#6EA8fe" 0 = "#6ea8fe"%string /\
  Color.shade "6EA8fe" 0 = "#6ea8fe"%string.
Proof.
  exact (shade_zero "6"%char "E"%char "A"%char "8"%char "f"%char "e"%char
           eq_refl).
Defined.

(** ** Easing curves *)

Module EasingFacts.

Lemma sq_nonneg (x : Q) : 0 <= x * x.
Proof.
  destruct (Qlt_le_dec x 0) as [H | H].
  - assert (E : x * x == (- x) * (- x)) by ring. rewrite E.
    apply Qmult_le_0_compat; lra.
  - apply Qmult_le_0_compat; assumption.
Qed.

Lemma sq_pos (x : Q) : ~ x == 0 -> 0 < x * x.
Proof.
  intros Hx. destruct (Qlt_le_dec x 0) as [H | H].
  - assert (E : x * x == (- x) * (- x)) by ring. rewrite E.
    apply Qmult_lt_0_compat; lra.
  - assert (0 < x).
    { apply Qle_lteq in H. destruct H as [H | H]; [exact H |].
      exfalso. apply Hx. symmetry. exact H. }
    apply Qmult_lt_0_compat; assumption.
Qed.

(** The cube is monotone on all rationals. *)
Lemma cube_mono (a b : Q) : a <= b -> a * a * a <= b * b * b.
Proof.
  intros H.
  assert (E : b * b * b - a * a * a
              == (b - a) * ((a + b / 2) * (a + b / 2) + (3 # 4) * (b * b)))
    by field.
  assert (P : 0 <= (b - a) * ((a + b / 2) * (a + b / 2) + (3 # 4) * (b * b))).
  { apply Qmult_le_0_compat; [lra |].
    pose proof (sq_nonneg (a + b / 2)). pose proof (sq_nonneg b). lra. }
  rewrite <- E in P. lra.
Qed.

Lemma easeInCubic_mono (a b : Q) : a <= b -> easeInCubic a <= easeInCubic b.
Proof. apply cube_mono. Qed.

Lemma easeOutCubic_mono (a b : Q) : a <= b -> easeOutCubic a <= easeOutCubic b.
Proof.
  intros H. unfold easeOutCubic, pow3.
  assert (H' : 1 - b <= 1 - a) by lra.
  pose proof (cube_mono _ _ H'). lra.
Qed.

Lemma easeInOutCubic_low (t : Q) : t < 0.5 -> easeInOutCubic t = 4 * t * t * t.
Proof.
  intros H. unfold easeInOutCubic.
  destruct (Qlt_le_dec t 0.5) as [_ | H']; [reflexivity |].
  exfalso. apply (Qlt_not_le _ _ H H').
Qed.

Lemma easeInOutCubic_high (t : Q) :
  0.5 <= t -> easeInOutCubic t = 1 - pow3 (-(2) * t + 2) / 2.
Proof.
  intros H. unfold easeInOutCubic.
  destruct (Qlt_le_dec t 0.5) as [H' | _]; [| reflexivity].
  exfalso. apply (Qlt_not_le _ _ H' H).
Qed.

Lemma easeInOutCubic_low_le (t : Q) : t <= 0.5 -> 4 * t * t * t <= 0.5.
Proof.
  intros H. pose proof (cube_mono t 0.5 H) as C.
  assert (E : 0.5 * 0.5 * 0.5 == 1 # 8) by reflexivity.
  rewrite E in C.
  assert (E' : 4 * t * t * t == 4 * (t * t * t)) by ring.
  rewrite E'. lra.
Qed.

Lemma easeInOutCubic_high_ge (t : Q) :
  0.5 <= t -> 0.5 <= 1 - pow3 (-(2) * t + 2) / 2.
Proof.
  intros H. unfold pow3.
  assert (H' : -(2) * t + 2 <= 1) by lra.
  pose proof (cube_mono _ 1 H') as C.
  assert (E : 1 * 1 * 1 == 1) by reflexivity. rewrite E in C.
  set (u := (-(2) * t + 2) * (-(2) * t + 2) * (-(2) * t + 2)) in *.
  clearbody u.
  assert (Eh : / 2 == 1 # 2) by reflexivity.
  unfold Qdiv. rewrite Eh. lra.
Qed.

Lemma easeInOutCubic_mono (a b : Q) :
  a <= b -> easeInOutCubic a <= easeInOutCubic b.
Proof.
  intros H.
  destruct (Qlt_le_dec a 0.5) as [Ha | Ha];
    destruct (Qlt_le_dec b 0.5) as [Hb | Hb].
  - rewrite !easeInOutCubic_low by assumption.
    pose proof (cube_mono a b H).
    assert (E1 : 4 * a * a * a == 4 * (a * a * a)) by ring.
    assert (E2 : 4 * b * b * b == 4 * (b * b * b)) by ring.
    rewrite E1, E2. lra.
  - rewrite easeInOutCubic_low, easeInOutCubic_high by assumption.
    apply Qle_trans with 0.5.
    + apply easeInOutCubic_low_le. lra.
    + apply easeInOutCubic_high_ge. exact Hb.
  - exfalso. lra.
  - rewrite !easeInOutCubic_high by assumption. unfold pow3.
    assert (H' : -(2) * b + 2 <= -(2) * a + 2) by lra.
    pose proof (cube_mono _ _ H') as C.
    set (u := (-(2) * a + 2) * (-(2) * a + 2) * (-(2) * a + 2)) in *.
    set (v := (-(2) * b + 2) * (-(2) * b + 2) * (-(2) * b + 2)) in *.
    clearbody u v.
    assert (Eh : / 2 == 1 # 2) by reflexivity.
    unfold Qdiv. rewrite Eh. lra.
Qed.

Lemma easeInOutCubic_0 : easeInOutCubic 0 == 0.
Proof. reflexivity. Qed.

Lemma easeInOutCubic_1 : easeInOutCubic 1 == 1.
Proof. reflexivity. Qed.

Lemma easeInOutCubic_unit (t : Q) :
  0 <= t <= 1 -> 0 <= easeInOutCubic t <= 1.
Proof.
  intros [H0 H1]. split.
  - rewrite <- easeInOutCubic_0. apply easeInOutCubic_mono, H0.
  - rewrite <- easeInOutCubic_1. apply easeInOutCubic_mono, H1.
Qed.

End EasingFacts.

(** X7.  The two cubic easings are non-decreasing on all rationals, map
    [0] to [0] and [1] to [1], and hence map the unit interval into
    itself. *)
Theorem cubic_easings_monotone :
  (forall a b : Q, a <= b -> easeInCubic a <= easeInCubic b) /\
  (forall a b : Q, a <= b -> easeOutCubic a <= easeOutCubic b) /\
  easeInCubic 0 == 0 /\ easeInCubic 1 == 1 /\
  easeOutCubic 0 == 0 /\ easeOutCubic 1 == 1 /\
  (forall t : Q, 0 <= t <= 1 ->
     0 <= easeInCubic t <= 1 /\ 0 <= easeOutCubic t <= 1).
Proof.
  split; [exact EasingFacts.easeInCubic_mono |].
  split; [exact EasingFacts.easeOutCubic_mono |].
  repeat split; try reflexivity;
    try (apply easeInCubic_unit; assumption);
    try (apply easeOutCubic_unit; assumption).
Qed.

Lemma cubic_easings_monotone_witness :
  easeInCubic 0.25 <= easeInCubic 0.75 /\
  easeOutCubic (-(1)) <= easeOutCubic 2.
Proof.
  destruct cubic_easings_monotone as (Hi & Ho & _).
  split; [apply Hi | apply Ho]; discriminate.
Defined.

(** X8.  [easeInOutCubic] is non-decreasing on all rationals in spite of
    its two branches, maps [0] to [0], [0.5] to [0.5] and [1] to [1], stays
    at or below [0.5] up to the centre and at or above [0.5] from it on,
    and maps the unit interval into itself. *)
Theorem easeInOutCubic_shape :
  (forall a b : Q, a <= b -> easeInOutCubic a <= easeInOutCubic b) /\
  easeInOutCubic 0 == 0 /\ easeInOutCubic 0.5 == 0.5 /\
  easeInOutCubic 1 == 1 /\
  (forall t : Q, t <= 0.5 -> easeInOutCubic t <= 0.5) /\
  (forall t : Q, 0.5 <= t -> 0.5 <= easeInOutCubic t) /\
  (forall t : Q, 0 <= t <= 1 -> 0 <= easeInOutCubic t <= 1).
Proof.
  assert (Eh : easeInOutCubic 0.5 == 0.5) by reflexivity.
  split; [exact EasingFacts.easeInOutCubic_mono |].
  split; [reflexivity |]. split; [exact Eh |]. split; [reflexivity |].
  split; [| split].
  - intros t Ht. apply Qle_trans with (easeInOutCubic 0.5).
    + apply EasingFacts.easeInOutCubic_mono, Ht.
    + rewrite Eh. apply Qle_refl.
  - intros t Ht. apply Qle_trans with (easeInOutCubic 0.5).
    + rewrite Eh. apply Qle_refl.
    + apply EasingFacts.easeInOutCubic_mono, Ht.
  - exact EasingFacts.easeInOutCubic_unit.
Qed.

Lemma easeInOutCubic_shape_witness :
  easeInOutCubic 0.4 <= easeInOutCubic 0.6.
Proof.
  apply (proj1 easeInOutCubic_shape). discriminate.
Defined.

Module PoseFacts.

Lemma easeOutBack_factored (t : Q) :
  easeOutBack t == 1 + (t - 1) * (t - 1) * (2.70158 * (t - 1) + 1.70158).
Proof. unfold easeOutBack, pow3, pow2. ring. Qed.

Lemma easeOutBack_compat (a b : Q) : a == b -> easeOutBack a == easeOutBack b.
Proof.
  intros E. rewrite !easeOutBack_factored. rewrite E. reflexivity.
Qed.

Lemma easeInOutCubic_compat (a b : Q) :
  a == b -> easeInOutCubic a == easeInOutCubic b.
Proof.
  intros E. apply Qle_antisym; apply EasingFacts.easeInOutCubic_mono;
    rewrite E; apply Qle_refl.
Qed.

Lemma progress_unit (s : Settings) (tMs : Q) : 0 <= progress s tMs <= 1.
Proof. unfold progress. apply clamp_bounds. discriminate. Qed.

Lemma progress_end (s : Settings) (tMs : Q) :
  0 < durationSeconds s -> durationSeconds s * 1000 <= tMs ->
  progress s tMs = 1.
Proof.
  intros Hd Ht. unfold progress. apply clamp_above.
  apply Qle_shift_div_l; lra.
Qed.

Lemma progress_start (s : Settings) : progress s 0 == 0.
Proof.
  unfold progress, clamp.
  assert (E : 0 / (durationSeconds s * 1000) == 0)
    by (unfold Qdiv; apply Qmult_0_l).
  rewrite E. reflexivity.
Qed.

End PoseFacts.

(** X9.  [easeOutBack] ends at [1] and starts at [0] (within [1e-9]),
    and overshoots by design: its value exceeds [1] for every argument
    from [0.4] to [0.99], and stays at or below [1] for every argument up
    to [0.37]. *)
Theorem easeOutBack_overshoot :
  easeOutBack 1 == 1 /\
  Qabs (easeOutBack 0) <= 0.000000001 /\
  (forall t : Q, 0.4 <= t <= 0.99 -> 1 < easeOutBack t) /\
  (forall t : Q, t <= 0.37 -> easeOutBack t <= 1).
Proof.
  split; [reflexivity | split; [| split]].
  - assert (E : easeOutBack 0 == 0) by reflexivity.
    rewrite E. discriminate.
  - intros t [Hlo Hhi].
    rewrite PoseFacts.easeOutBack_factored.
    assert (Hsq : 0 < (t - 1) * (t - 1)).
    { apply EasingFacts.sq_pos. intros E. lra. }
    assert (Hl : 0 < 2.70158 * (t - 1) + 1.70158) by lra.
    pose proof (Qmult_lt_0_compat _ _ Hsq Hl). lra.
  - intros t Ht.
    rewrite PoseFacts.easeOutBack_factored.
    pose proof (EasingFacts.sq_nonneg (t - 1)) as Hsq.
    assert (Hl : 0 <= - (2.70158 * (t - 1) + 1.70158)) by lra.
    pose proof (Qmult_le_0_compat _ _ Hsq Hl) as P.
    assert (E : (t - 1) * (t - 1) * - (2.70158 * (t - 1) + 1.70158)
                == - ((t - 1) * (t - 1) * (2.70158 * (t - 1) + 1.70158)))
      by ring.
    rewrite E in P. lra.
Qed.

Lemma easeOutBack_overshoot_witness :
  1 < easeOutBack 0.6 /\ easeOutBack 0.25 <= 1.
Proof.
  destruct easeOutBack_overshoot as (_ & _ & Hover & Hbelow).
  split.
  - apply (Hover 0.6). split; discriminate.
  - apply (Hbelow 0.25). discriminate.
Defined.

(** X10.  For a positive duration, the [zoom] animation paints the text
    at alpha [0.95] without offset; its scale is [0.9] at the start, never
    falls below [0.9], and is [1.1] from five sixths of the duration on,
    in particular once the duration has elapsed. *)
Theorem zoom_pose (Math_sin : Q -> Q) (s : Settings) (tMs : Q) :
  animation s = zoom ->
  0 < durationSeconds s ->
  exists scale : Q,
    pose Math_sin s tMs = (0.95, 0, scale) /\
    0.9 <= scale /\
    (tMs == 0 -> scale == 0.9) /\
    (5 # 6 <= progress s tMs -> scale == 1.1) /\
    (durationSeconds s * 1000 <= tMs -> scale == 1.1).
Proof.
  intros Ha Hd. unfold pose. rewrite Ha.
  eexists. split; [reflexivity |].
  pose proof (PoseFacts.progress_unit s tMs) as [P0 P1].
  assert (Hend : 5 # 6 <= progress s tMs ->
          0.9 + easeOutBack (Qmin (progress s tMs * 1.2) 1) * 0.2 == 1.1).
  { intros H.
    rewrite (PoseFacts.easeOutBack_compat _ 1); [reflexivity |].
    apply Q.min_r. lra. }
  split; [| split; [| split]].
  - set (m := Qmin (progress s tMs * 1.2) 1).
    assert (Hm : 0 <= m <= 1).
    { subst m. split; [apply Q.min_glb; lra | apply Q.le_min_r]. }
    rewrite PoseFacts.easeOutBack_factored.
    pose proof (EasingFacts.sq_nonneg (m - 1)) as Hsq.
    assert (Hl : 0 <= 2.70158 * (m - 1) + 1.70158 + 1) by lra.
    pose proof (Qmult_le_0_compat _ _ Hsq Hl) as P.
    assert (Hsq1 : (m - 1) * (m - 1) <= 1).
    { assert (E : (m - 1) * (m - 1) == (1 - m) * (1 - m)) by ring.
      rewrite E. apply sq_unit. lra. }
    assert (E : (m - 1) * (m - 1) * (2.70158 * (m - 1) + 1.70158 + 1)
                == (m - 1) * (m - 1) * (2.70158 * (m - 1) + 1.70158)
                   + (m - 1) * (m - 1)) by ring.
    rewrite E in P. lra.
  - intros Ht.
    assert (Hp : progress s tMs == 0).
    { unfold progress, clamp.
      assert (E : tMs / (durationSeconds s * 1000) == 0)
        by (rewrite Ht; unfold Qdiv; apply Qmult_0_l).
      rewrite E. reflexivity. }
    rewrite (PoseFacts.easeOutBack_compat _ 0); [reflexivity |].
    rewrite Hp. reflexivity.
  - exact Hend.
  - intros Ht. apply Hend.
    rewrite (PoseFacts.progress_end s tMs Hd Ht). discriminate.
Qed.

Lemma zoom_pose_witness :
  exists scale : Q,
    pose sin0 (with_animation zoom DEFAULTS) 7000 = (0.95, 0, scale) /\
    scale == 1.1.
Proof.
  assert (Hd : 0 < durationSeconds (with_animation zoom DEFAULTS))
    by reflexivity.
  destruct (zoom_pose sin0 (with_animation zoom DEFAULTS) 7000 eq_refl Hd)
    as (scale & E & _ & _ & _ & Hend).
  exists scale. split; [exact E |].
  apply Hend. discriminate.
Defined.

(** X11.  For a positive duration, the [slide] animation paints the text
    at alpha [0.9] and scale [1]; whatever sign [Math.sin] yields, the
    vertical offset stays within a quarter of the frame height on either
    side, and it is [0] once the duration has elapsed. *)
Theorem slide_pose (Math_sin : Q -> Q) (s : Settings) (tMs : Q) :
  animation s = slide ->
  0 < durationSeconds s ->
  exists yOffset : Q,
    pose Math_sin s tMs = (0.9, yOffset, 1) /\
    (0 <= height s ->
     - (0.25 * height s) <= yOffset <= 0.25 * height s) /\
    (durationSeconds s * 1000 <= tMs -> yOffset == 0).
Proof.
  intros Ha Hd. unfold pose. rewrite Ha.
  eexists. split; [reflexivity |].
  pose proof (EasingFacts.easeInOutCubic_unit _
                (PoseFacts.progress_unit s tMs)) as [E0 E1].
  split.
  - intros Hh.
    set (p := easeInOutCubic (progress s tMs)) in *. clearbody p.
    assert (K : 0 <= (1 - p) * height s <= height s).
    { split.
      - apply Qmult_le_0_compat; lra.
      - apply Qle_trans with (1 * height s).
        + apply Qmult_le_compat_r; lra.
        + lra. }
    destruct K as [K0 K1].
    destruct (Qlt_le_dec 0 (Math_sin (tMs * 0.002))).
    + assert (E : (1 - p) * 1 * height s * 0.25
                  == 0.25 * ((1 - p) * height s)) by ring.
      rewrite E. lra.
    + assert (E : (1 - p) * -(1) * height s * 0.25
                  == - (0.25 * ((1 - p) * height s))) by ring.
      rewrite E. lra.
  - intros Ht. rewrite (PoseFacts.progress_end s tMs Hd Ht).
    assert (E : easeInOutCubic 1 == 1) by reflexivity.
    rewrite E. ring.
Qed.

Lemma slide_pose_witness :
  exists yOffset : Q,
    pose sin0 (with_animation slide DEFAULTS) 1500 = (0.9, yOffset, 1) /\
    - (320) <= yOffset <= 320.
Proof.
  assert (Hd : 0 < durationSeconds (with_animation slide DEFAULTS))
    by reflexivity.
  destruct (slide_pose sin0 (with_animation slide DEFAULTS) 1500 eq_refl Hd)
    as (y & E & Hb & _).
  exists y. split; [exact E |].
  assert (H : 0 <= height (with_animation slide DEFAULTS)) by discriminate.
  destruct (Hb H) as [H1 H2]. split.
  - apply Qle_trans with (- (0.25 * height (with_animation slide DEFAULTS)));
      [discriminate | exact H1].
  - apply Qle_trans with (0.25 * height (with_animation slide DEFAULTS));
      [exact H2 | discriminate].
Defined.

(** X12.  For every animation and time, and every settings value with a
    positive duration, the alpha the renderer computes for the text lies
    in [0, 1]; the [globalAlpha] setter, which ignores values outside that
    range, therefore takes it. *)
Theorem pose_alpha_valid (Math_sin : Q -> Q) (s : Settings) (tMs : Q) :
  0 < durationSeconds s ->
  let alpha := fst (fst (pose Math_sin s tMs)) in
  0 <= alpha <= 1 /\
  Canvas.valid_alpha alpha = true /\
  forall c : Canvas.ctx,
    Canvas.globalAlpha (Canvas.cur (Canvas.set_globalAlpha alpha c)) = alpha.
Proof.
  intros _ alpha.
  assert (H : 0 <= alpha <= 1).
  { subst alpha. unfold pose.
    destruct (animation s); cbn [fst]; try (split; discriminate).
    apply fadeAlpha_unit. }
  assert (V : Canvas.valid_alpha alpha = true).
  { unfold Canvas.valid_alpha. destruct H as [H0 H1].
    apply Qle_bool_iff in H0. apply Qle_bool_iff in H1.
    rewrite H0, H1. reflexivity. }
  split; [exact H | split; [exact V |]].
  intros c. unfold Canvas.set_globalAlpha, Canvas.with_cur.
  cbn [Canvas.cur Canvas.globalAlpha]. rewrite V. reflexivity.
Qed.

Lemma pose_alpha_valid_witness :
  0 < durationSeconds DEFAULTS /\
  Canvas.valid_alpha (fst (fst (pose sin0 DEFAULTS 1500))) = true.
Proof.
  assert (Hd : 0 < durationSeconds DEFAULTS) by reflexivity.
  split; [exact Hd |].
  exact (proj1 (proj2 (pose_alpha_valid sin0 DEFAULTS 1500 Hd))).
Defined.

(** X13.  The [fade] alpha rises during the first half of the animation
    and falls during the second: it is non-decreasing in the progress up
    to [0.5] and non-increasing from [0.5] on. *)
Theorem fade_rises_then_falls (p q : Q) :
  p <= q ->
  (q <= 0.5 -> fadeAlpha p <= fadeAlpha q) /\
  (0.5 <= p -> fadeAlpha q <= fadeAlpha p).
Proof.
  intros Hpq.
  assert (Lo : forall x, x <= 0.5 ->
            fadeAlpha x == easeOutCubic (clamp (x * 2) 0 1)).
  { intros x Hx. unfold fadeAlpha, easeInCubic.
    assert (E : clamp ((x - 0.5) * 2) 0 1 == 0).
    { unfold clamp. apply Q.max_l.
      apply Qle_trans with ((x - 0.5) * 2); [apply Q.le_min_r | lra]. }
    rewrite E. ring. }
  assert (Hi : forall x, 0.5 <= x ->
            fadeAlpha x == 1 - easeInCubic (clamp ((x - 0.5) * 2) 0 1)).
  { intros x Hx. unfold fadeAlpha, easeOutCubic, pow3.
    assert (E : clamp (x * 2) 0 1 == 1).
    { unfold clamp. rewrite (Q.min_l 1 (x * 2)) by lra.
      apply Q.max_r. discriminate. }
    rewrite E. ring. }
  split; intros H.
  - rewrite (Lo p), (Lo q) by lra.
    apply EasingFacts.easeOutCubic_mono, clamp_mono. lra.
  - rewrite (Hi p), (Hi q) by lra.
    assert (M : easeInCubic (clamp ((p - 0.5) * 2) 0 1)
                <= easeInCubic (clamp ((q - 0.5) * 2) 0 1)).
    { apply EasingFacts.easeInCubic_mono, clamp_mono. lra. }
    lra.
Qed.

Lemma fade_rises_then_falls_witness :
  fadeAlpha 0.1 <= fadeAlpha 0.3 /\ fadeAlpha 0.9 <= fadeAlpha 0.6.
Proof.
  split.
  - apply (proj1 (fade_rises_then_falls 0.1 0.3 ltac:(discriminate))).
    discriminate.
  - apply (proj2 (fade_rises_then_falls 0.6 0.9 ltac:(discriminate))).
    discriminate.
Defined.

(** ** Splitting into lines and revealing text *)

Module LinesFacts.

Lemma string_of_snoc (l : list ascii) (c : ascii) (rest : string) :
  (string_of_list_ascii (l ++ [c]) ++ rest)%string
  = (string_of_list_ascii l ++ String c rest)%string.
Proof. induction l as [| a l IH]; cbn; [reflexivity | f_equal; exact IH]. Qed.

Lemma append_empty (s : string) : (s ++ "")%string = s.
Proof. induction s as [| c s IH]; cbn; [reflexivity | f_equal; exact IH]. Qed.

Lemma join_cons (x l : string) (ls : list string) :
  join_lines (x :: l :: ls) = (x ++ newline ++ join_lines (l :: ls))%string.
Proof. reflexivity. Qed.

Lemma split_acc_cons (s : string) (acc : list ascii) :
  exists l ls, split_lines_acc s acc = l :: ls.
Proof.
  revert acc. induction s as [| c rest IH]; intros acc; cbn [split_lines_acc].
  - eauto.
  - destruct (Ascii.eqb c (ascii_of_nat 10)); [eauto |].
    destruct (Ascii.eqb c (ascii_of_nat 13)); [| apply IH].
    destruct rest as [| c' rest']; [apply IH |].
    destruct (Ascii.eqb c' (ascii_of_nat 10)); [eauto | apply IH].
Qed.

Lemma occurs_app (c : ascii) (a b : string) :
  occurs c (a ++ b) = occurs c a || occurs c b.
Proof.
  induction a as [| x a IH]; cbn; [reflexivity |].
  rewrite IH. apply orb_assoc.
Qed.

Lemma occurs_of_list (c : ascii) (l : list ascii) :
  occurs c (string_of_list_ascii l) = existsb (fun x => Ascii.eqb x c) l.
Proof. induction l as [| a l IH]; cbn; [reflexivity | rewrite IH; reflexivity]. Qed.

Lemma existsb_rev {A} (f : A -> bool) (l : list A) :
  existsb f (rev l) = existsb f l.
Proof.
  induction l as [| a l IH]; [reflexivity |].
  cbn [rev]. rewrite existsb_app, IH. cbn. rewrite orb_false_r.
  apply orb_comm.
Qed.

(** No piece of a split contains a line feed. *)
Lemma split_acc_no_LF (s : string) (acc : list ascii) :
  existsb (fun x => Ascii.eqb x LF) acc = false ->
  Forall (fun l => occurs LF l = false) (split_lines_acc s acc).
Proof.
  assert (P : forall acc, existsb (fun x => Ascii.eqb x LF) acc = false ->
              occurs LF (string_of_list_ascii (rev acc)) = false).
  { intros a H. rewrite occurs_of_list, existsb_rev. exact H. }
  revert acc. induction s as [| c rest IH]; intros acc Hacc;
    cbn [split_lines_acc].
  - constructor; [apply P, Hacc | constructor].
  - destruct (Ascii.eqb c (ascii_of_nat 10)) eqn:E10.
    + constructor; [apply P, Hacc | apply IH; reflexivity].
    + assert (Hc : existsb (fun x => Ascii.eqb x LF) (c :: acc) = false).
      { cbn [existsb]. rewrite Hacc. unfold LF. rewrite E10. reflexivity. }
      destruct (Ascii.eqb c (ascii_of_nat 13)); [| apply IH, Hc].
      destruct rest as [| c' rest']; [apply IH, Hc |].
      destruct (Ascii.eqb c' (ascii_of_nat 10)) eqn:E'.
      * constructor; [apply P, Hacc |].
        specialize (IH (c :: acc) Hc). cbn [split_lines_acc] in IH.
        rewrite E' in IH. inversion IH; assumption.
      * apply IH, Hc.
Qed.

(** The number of pieces is the number of line feeds plus one. *)
Lemma split_acc_length (s : string) (acc : list ascii) :
  List.length (split_lines_acc s acc) = S (count_char LF s).
Proof.
  revert acc. induction s as [| c rest IH]; intros acc;
    cbn [split_lines_acc count_char]; [reflexivity |].
  unfold LF at 1. destruct (Ascii.eqb c (ascii_of_nat 10)) eqn:E10.
  - cbn [List.length]. rewrite IH. reflexivity.
  - destruct (Ascii.eqb c (ascii_of_nat 13)); [| apply IH].
    destruct rest as [| c' rest']; [apply IH |].
    destruct (Ascii.eqb c' (ascii_of_nat 10)) eqn:E'.
    + specialize (IH (c :: acc)). cbn [split_lines_acc count_char] in IH.
      unfold LF at 1 in IH. rewrite E' in IH.
      cbn [List.length] in IH |- *.
      cbn [count_char]. unfold LF at 1. rewrite E'.
      exact IH.
    + apply IH.
Qed.

(** Without carriage returns, joining the pieces gives back the text. *)
Lemma split_acc_join (s : string) (acc : list ascii) :
  occurs CR s = false ->
  join_lines (split_lines_acc s acc)
  = (string_of_list_ascii (rev acc) ++ s)%string.
Proof.
  revert acc. induction s as [| c rest IH]; intros acc Hs;
    cbn [split_lines_acc].
  - rewrite append_empty. reflexivity.
  - cbn [occurs] in Hs. apply orb_false_elim in Hs. destruct Hs as [Hc Hs].
    unfold CR in Hc. rewrite Hc.
    destruct (Ascii.eqb_spec c (ascii_of_nat 10)) as [-> | Hne].
    + specialize (IH [] Hs).
      destruct (split_acc_cons rest []) as (l & ls & E).
      rewrite E in IH |- *. rewrite join_cons, IH. reflexivity.
    + rewrite (IH (c :: acc) Hs). cbn [rev]. apply string_of_snoc.
Qed.


End LinesFacts.

(** X14.  Splitting a text into lines always yields at least one piece,
    exactly one more than the text has line feeds; no piece contains a
    line feed; and for a text without carriage returns, joining the pieces
    with line feeds gives the text back. *)
Theorem split_lines_pieces (s : string) :
  List.length (split_lines s) = S (count_char LF s) /\
  Forall (fun l => occurs LF l = false) (split_lines s) /\
  (occurs CR s = false -> join_lines (split_lines s) = s).
Proof.
  unfold split_lines. split; [| split].
  - apply LinesFacts.split_acc_length.
  - apply LinesFacts.split_acc_no_LF. reflexivity.
  - intros H. rewrite (LinesFacts.split_acc_join s [] H). reflexivity.
Qed.

Lemma split_lines_pieces_witness :
  join_lines (split_lines (text DEFAULTS)) = text DEFAULTS.
Proof.
  apply (split_lines_pieces (text DEFAULTS)). reflexivity.
Defined.



(** ** What a frame is made of *)

Module FrameFacts.
Import Canvas.

Lemma added_app (c c' : ctx) (ps : list prim) :
  surface c' = surface c ++ ps -> added c c' = ps.
Proof.
  intros E. unfold added. rewrite E, skipn_app, skipn_all, Nat.sub_diag.
  reflexivity.
Qed.

Lemma text_of_painted (lh : Q) (d : dstate) (ils : list (nat * string)) :
  map text_of (map (painted_line lh d) ils) = map Some (map snd ils).
Proof.
  induction ils as [| il ils IH]; [reflexivity |].
  cbn [map]. rewrite IH. reflexivity.
Qed.

Lemma snd_combine_seq {A} (l : list A) (k : nat) :
  map snd (combine (List.seq k (List.length l)) l) = l.
Proof.
  revert k. induction l as [| a l IH]; intros k; [reflexivity |].
  cbn. f_equal. apply IH.
Qed.

Lemma painted_props (lh : Q) (d : dstate) (ils : list (nat * string)) :
  Forall (fun p => is_fillText p = true /\ is_fillRect p = false /\
                   is_stroke p = false /\ alpha_of p = Some (globalAlpha d))
         (map (painted_line lh d) ils).
Proof.
  apply Forall_forall. intros p Hp. apply in_map_iff in Hp.
  destruct Hp as (il & <- & _). repeat split.
Qed.

Lemma no_fillRect_in_text (lh : Q) (d : dstate) (ils : list (nat * string)) :
  filter is_fillRect (map (painted_line lh d) ils) = [].
Proof. induction ils as [| il ils IH]; [reflexivity | exact IH]. Qed.

End FrameFacts.

(** X16.  [drawLines] leaves the attributes, the stack and the path of
    the context as it found them, and paints one text primitive per line,
    in the order of the lines: line [i] at [(0, i * lineHeight)], all with
    the same attributes. *)
Theorem drawLines_paints_lines (lines : list string)
    (x y lh bh sc al : Q) (c : Canvas.ctx) :
  let c' := drawLines lines x y lh bh sc al c in
  Canvas.cur c' = Canvas.cur c /\
  Canvas.stack c' = Canvas.stack c /\
  Canvas.path c' = Canvas.path c /\
  added c c'
  = map (painted_line lh (lines_dstate x y lh bh sc al (Canvas.cur c)))
      (combine (List.seq 0 (List.length lines)) lines) /\
  map text_of (added c c') = map Some lines.
Proof.
  intros c'. subst c'. rewrite RenderFacts.drawLines_explicit.
  cbn [Canvas.cur Canvas.stack Canvas.path].
  assert (E : added c
                (Canvas.mkCtx (Canvas.cur c) (Canvas.stack c) (Canvas.path c)
                   (Canvas.surface c ++
                    map (painted_line lh
                           (lines_dstate x y lh bh sc al (Canvas.cur c)))
                      (combine (List.seq 0 (List.length lines)) lines)))
              = map (painted_line lh
                       (lines_dstate x y lh bh sc al (Canvas.cur c)))
                  (combine (List.seq 0 (List.length lines)) lines)).
  { apply FrameFacts.added_app. reflexivity. }
  rewrite E. repeat split.
  rewrite FrameFacts.text_of_painted, FrameFacts.snd_combine_seq.
  reflexivity.
Qed.

(** X17.  For a positive duration, whatever the rest of the settings, the
    time and the context, a frame adds to the surface, in this order: the
    clearing of the whole frame, the background rectangle over the whole
    frame, three strokes, one text primitive per line shown, and the end
    of the frame.  For the typewriter the lines shown are those of a
    prefix of the text and the frame ends there; for the other animations
    they are the lines of the whole text, and the frame ends with the
    progress bar, its filled part a whole number of pixels wide. *)
Theorem drawFrame_composition (Math_sin : Q -> Q) (s : Settings) (tMs : Q)
    (c : Canvas.ctx) :
  0 < durationSeconds s ->
  exists strokes texts bar : list Canvas.prim,
    added c (drawFrame Math_sin s tMs c)
    = [Canvas.PClearRect 0 0 (width s) (height s)
         (Canvas.transform (Canvas.cur c));
       Canvas.PFillRect 0 0 (width s) (height s)
         (Canvas.LinearGradient 0 0 0 (height s)
            [(0, background s); (1, Color.shade (background s) (-(12)))])
         (Canvas.globalAlpha (Canvas.cur c))
         (Canvas.transform (Canvas.cur c))]
      ++ strokes ++ texts ++ bar /\
    List.length strokes = 3%nat /\
    forallb is_stroke strokes = true /\
    match animation s with
    | typewriter =>
        bar = [] /\
        exists n : nat,
          map text_of texts
          = map Some (split_lines (substring 0 n (text s)))
    | _ =>
        map text_of texts = map Some (split_lines (text s)) /\
        exists w : Q,
          (exists z : Z, w = inject_Z z) /\
          bar = bar_of_width s w (Canvas.globalAlpha (Canvas.cur c))
                  (Canvas.transform (Canvas.cur c))
    end.
Proof.
  intros _.
  destruct (RenderFacts.drawFrame_shape Math_sin s tMs)
    as (F0 & F1 & F2 & T & _ & H).
  eexists [_; _; _], _, _. split; [| split; [| split]].
  - apply FrameFacts.added_app. rewrite (H c). cbn [app]. reflexivity.
  - reflexivity.
  - reflexivity.
  - rewrite FrameFacts.text_of_painted, FrameFacts.snd_combine_seq.
    unfold frame_lines, frame_bar, progress_bar, bar_of_width.
    destruct (animation s).
    4: { split; [reflexivity |]. unfold visible, slice0. eexists.
         reflexivity. }
    all: split; [reflexivity |];
      exists (Math_floor ((width s - 24 * 2) * progress s tMs));
      split; [exists (Qfloor ((width s - 24 * 2) * progress s tMs)) |];
      reflexivity.
Qed.

Lemma drawFrame_composition_witness :
  0 < durationSeconds typewriter_defaults /\
  exists strokes texts bar : list Canvas.prim,
    added Canvas.initial (drawFrame sin0 typewriter_defaults 3000 Canvas.initial)
    = [Canvas.PClearRect 0 0 (width typewriter_defaults)
         (height typewriter_defaults)
         (Canvas.transform (Canvas.cur Canvas.initial));
       Canvas.PFillRect 0 0 (width typewriter_defaults)
         (height typewriter_defaults)
         (Canvas.LinearGradient 0 0 0 (height typewriter_defaults)
            [(0, background typewriter_defaults);
             (1, Color.shade (background typewriter_defaults) (-(12)))])
         (Canvas.globalAlpha (Canvas.cur Canvas.initial))
         (Canvas.transform (Canvas.cur Canvas.initial))]
      ++ strokes ++ texts ++ bar /\
    List.length strokes = 3%nat /\ bar = [].
Proof.
  assert (Hd : 0 < durationSeconds typewriter_defaults) by reflexivity.
  split; [exact Hd |].
  destruct (drawFrame_composition sin0 typewriter_defaults 3000
              Canvas.initial Hd)
    as (strokes & texts & bar & E & L & _ & Hb & _).
  exists strokes, texts, bar. split; [exact E | split; [exact L | exact Hb]].
Defined.

(** X18.  Every line of text is painted with alpha [1], whatever the
    animation and whatever alpha it computed: [drawLines] is always called
    with [alpha = 1] and assigns it to [globalAlpha] before painting, so
    the value the [fade], [slide] or [zoom] case had set is overwritten. *)
Theorem text_is_painted_opaque (Math_sin : Q -> Q) (s : Settings) (tMs : Q)
    (c : Canvas.ctx) (p : Canvas.prim) :
  In p (added c (drawFrame Math_sin s tMs c)) ->
  is_fillText p = true ->
  alpha_of p = Some 1.
Proof.
  destruct (RenderFacts.drawFrame_shape Math_sin s tMs)
    as (F0 & F1 & F2 & T & HT & H).
  rewrite (FrameFacts.added_app _ _ _ (H c)).
  intros Hin Htext.
  apply in_app_or in Hin. destruct Hin as [Hin | Hin].
  { cbn [In] in Hin.
    repeat (destruct Hin as [<- | Hin]; [discriminate Htext |]).
    contradiction. }
  apply in_app_or in Hin. destruct Hin as [Hin | Hin].
  - pose proof (FrameFacts.painted_props (fontSize s * 1.3)
                  (T (Canvas.globalAlpha (Canvas.cur c))
                     (Canvas.transform (Canvas.cur c)))
                  (combine (List.seq 0 (List.length (frame_lines s tMs)))
                     (frame_lines s tMs))) as P.
    rewrite Forall_forall in P. destruct (P p Hin) as (_ & _ & _ & Ha).
    rewrite Ha. f_equal. apply HT.
  - unfold frame_bar, progress_bar in Hin.
    destruct (animation s); cbn [In] in Hin;
      repeat (destruct Hin as [<- | Hin]; [discriminate Htext |]);
      contradiction.
Qed.

Lemma text_is_painted_opaque_witness :
  alpha_of
    (nth 5 (added Canvas.initial (drawFrame sin0 DEFAULTS 600 Canvas.initial))
       (Canvas.PClearRect 0 0 0 0 Canvas.identity))
  = Some 1.
Proof.
  assert (Hlen : (5 < List.length
                        (added Canvas.initial
                           (drawFrame sin0 DEFAULTS 600 Canvas.initial)))%nat).
  { vm_compute. repeat constructor. }
  assert (Ht : is_fillText
                 (nth 5 (added Canvas.initial
                           (drawFrame sin0 DEFAULTS 600 Canvas.initial))
                    (Canvas.PClearRect 0 0 0 0 Canvas.identity)) = true).
  { vm_compute. reflexivity. }
  exact (text_is_painted_opaque sin0 DEFAULTS 600 Canvas.initial _
           (nth_In _ _ Hlen) Ht).
Defined.

(** X19.  A typewriter frame contains a single filled rectangle, the
    background: no progress bar is painted.  A frame of any other
    animation contains three: the background, the track and the filled
    part of the bar. *)
Theorem fillRect_count (Math_sin : Q -> Q) (s : Settings) (tMs : Q)
    (c : Canvas.ctx) :
  List.length (filter is_fillRect (added c (drawFrame Math_sin s tMs c)))
  = match animation s with typewriter => 1%nat | _ => 3%nat end.
Proof.
  destruct (RenderFacts.drawFrame_shape Math_sin s tMs)
    as (F0 & F1 & F2 & T & _ & H).
  rewrite (FrameFacts.added_app _ _ _ (H c)).
  rewrite !filter_app, !length_app.
  rewrite FrameFacts.no_fillRect_in_text. unfold frame_bar, progress_bar.
  destruct (animation s); reflexivity.
Qed.

(** ** More on the capture session *)

Module SessionMore.
Import Session.

Lemma find_first {A} (f : A -> bool) (pre : list A) (m : A) (post : list A) :
  (forall x, In x pre -> f x = false) -> f m = true ->
  find f (pre ++ m :: post) = Some m.
Proof.
  intros Hpre Hm. induction pre as [| a pre IH]; cbn [app find].
  - rewrite Hm. reflexivity.
  - rewrite (Hpre a (or_introl eq_refl)). apply IH.
    intros x Hx. apply Hpre. right. exact Hx.
Qed.

Lemma candidate_nonempty (m : string) :
  In m mimeCandidates -> String.eqb m "" = false.
Proof.
  unfold mimeCandidates. cbn [In].
  intros [<- | [<- | [<- | [<- | []]]]]; reflexivity.
Qed.


(** What [startRecording] does in each of its five ways out. *)
Lemma startRecording_cases (s : Settings) (p : platform) (st : state) :
  let o := startRecording s p st in
  (effects o = [] \/
   effects o = [RecorderStart 100; RequestAnimationFrame (nextFrame p)]) /\
  blobUrl (final o) = None /\
  canvas (final o) = canvas st.
Proof.
  cbv zeta. unfold startRecording. cbn [canvas set_blobUrl set_error].
  destruct (canvas st) eqn:Ec;
    [| split; [left; reflexivity | split; [reflexivity | exact Ec]]].
  destruct (captureStream p);
    [split; [left; reflexivity | split; [reflexivity | exact Ec]] |].
  destruct (newMediaRecorder p _);
    [split; [left; reflexivity | split; [reflexivity | exact Ec]] |].
  destruct (start p);
    (split; [(left; reflexivity) || (right; reflexivity)
            | split; [reflexivity | exact Ec]]).
Qed.

Section Ticks.

Variable Math_sin : Q -> Q.


End Ticks.

End SessionMore.

(** X20.  [startRecording] asks for the first MIME type, in the order of
    its list of candidates, that the platform supports; when the platform
    supports none it passes no option to the recorder constructor. *)
Theorem chooseMimeType_preference (p : Session.platform) :
  ((forall m, In m Session.mimeCandidates ->
              Session.isTypeSupported p m = false) ->
   Session.chooseMimeType p = ""%string /\
   Session.recorderOptions (Session.chooseMimeType p) = None) /\
  (forall pre m post,
     Session.mimeCandidates = pre ++ m :: post ->
     (forall x, In x pre -> Session.isTypeSupported p x = false) ->
     Session.isTypeSupported p m = true ->
     Session.chooseMimeType p = m /\
     Session.recorderOptions (Session.chooseMimeType p) = Some m).
Proof.
  split.
  - intros Hnone. unfold Session.chooseMimeType.
    destruct (find (Session.isTypeSupported p) Session.mimeCandidates)
      as [m |] eqn:E.
    + apply find_some in E. destruct E as [Hin Hs].
      rewrite (Hnone m Hin) in Hs. discriminate Hs.
    + split; reflexivity.
  - intros pre m post Hsplit Hpre Hm.
    assert (E : Session.chooseMimeType p = m).
    { unfold Session.chooseMimeType. rewrite Hsplit.
      rewrite (SessionMore.find_first _ pre m post Hpre Hm). reflexivity. }
    split; [exact E |]. rewrite E. unfold Session.recorderOptions.
    rewrite SessionMore.candidate_nonempty; [reflexivity |].
    rewrite Hsplit. apply in_or_app. right. left. reflexivity.
Qed.

Lemma chooseMimeType_preference_witness :
  Session.chooseMimeType
    (Session.mkPlatform None
       (fun m => String.eqb m "video/webm" || String.eqb m "video/mp4;codecs=h264,aac")
       (fun _ => inr "video/webm"%string) None 0 1%positive)
  = "video/webm"%string.
Proof.
  apply (proj2 (chooseMimeType_preference
                  (Session.mkPlatform None
                     (fun m => String.eqb m "video/webm"
                               || String.eqb m "video/mp4;codecs=h264,aac")
                     (fun _ => inr "video/webm"%string) None 0 1%positive))
           ["video/webm;codecs=vp9,opus"; "video/webm;codecs=vp8,opus"]%string
           "video/webm"%string ["video/mp4;codecs=h264,aac"]%string).
  - reflexivity.
  - cbn [In]. intros x [<- | [<- | []]]; reflexivity.
  - reflexivity.
Defined.

(** X21.  [startRecording] never stops a recorder and never cancels a
    frame: whatever the state it is called in, it either makes no platform
    call or starts the new recorder and requests one frame.  It always
    clears the previous result, and it leaves the canvas alone. *)
Theorem startRecording_never_stops (s : Settings) (p : Session.platform)
    (st : Session.state) :
  let o := Session.startRecording s p st in
  ~ In Session.RecorderStop (Session.effects o) /\
  (forall id, ~ In (Session.CancelAnimationFrame id) (Session.effects o)) /\
  (Session.effects o = [] \/
   Session.effects o
   = [Session.RecorderStart 100;
      Session.RequestAnimationFrame (Session.nextFrame p)]) /\
  Session.blobUrl (Session.final o) = None /\
  Session.canvas (Session.final o) = Session.canvas st.
Proof.
  intros o. subst o.
  destruct (SessionMore.startRecording_cases s p st) as (He & Hb & Hc).
  split; [| split; [| split; [exact He | split; assumption]]].
  - destruct He as [-> | ->]; cbn [In]; intros H.
    + exact H.
    + destruct H as [H | [H | []]]; discriminate H.
  - intros id. destruct He as [-> | ->]; cbn [In]; intros H.
    + exact H.
    + destruct H as [H | [H | []]]; discriminate H.
Qed.

Module SessionRun.
Import Session.

Lemma stopRecording_keeps (st : state) :
  let st' := final (stopRecording st) in
  progressMs st' = progressMs st /\ canvas st' = canvas st /\
  chunksRef st' = chunksRef st /\ error st' = error st /\
  blobUrl st' = blobUrl st /\ startTimeRef st' = startTimeRef st /\
  (recorderRef st = None <-> recorderRef st' = None).
Proof.
  destruct st as [rc bu er pm cv rr ch rf stt]. unfold stopRecording. cbn.
  destruct rr as [[mt []] |]; cbn; repeat split; intros;
    try discriminate; reflexivity.
Qed.




End SessionRun.





Module SessionInvariants.
Import Session.

Section Reach.

Variable Math_sin : Q -> Q.

Lemma inv_stop (st : state) :
  session_inv st -> session_inv (final (stopRecording st)).
Proof.
  intros [Hch _].
  destruct (SessionRun.stopRecording_keeps st) as (_ & _ & Kch & _).
  destruct (SessionFacts.stopRecording_final st) as (_ & Frec & _).
  split.
  - rewrite Kch. exact Hch.
  - rewrite Frec. intros H. discriminate H.
Qed.

Lemma reachable_inv (st : state) :
  reachable Math_sin st -> session_inv st.
Proof.
  induction 1 as [c | s p st _ IH | st _ IH | s t h n st _ IH
                  | e st _ IH | st _ IH | mr rs st _ IH E].
  - split; [constructor | intros H; discriminate H].
  - destruct IH as [Hch Hrec].
    unfold startRecording. cbn [canvas set_blobUrl set_error].
    destruct (canvas st).
    2: { split; [exact Hch |]. cbn. intros H.
         destruct (Hrec H) as (A & B & _). auto. }
    destruct (captureStream p).
    { split; [exact Hch |]. cbn. intros H.
      destruct (Hrec H) as (A & B & _). auto. }
    destruct (newMediaRecorder p _).
    { split; [exact Hch | cbn; intros H; discriminate H]. }
    destruct (start p).
    { split; [constructor | cbn; intros H; discriminate H]. }
    split; [constructor |]. cbn. intros _.
    repeat split; intros H; discriminate H.
  - apply inv_stop, IH.
  - unfold tick. cbn [canvas set_progressMs].
    destruct (canvas st); [| exact IH].
    destruct h; [| exact IH].
    destruct (Qlt_le_dec _ _).
    + destruct IH as [Hch Hrec]. split; [exact Hch |]. cbn. intros H.
      destruct (Hrec H) as (A & _ & C). repeat split; try assumption.
      intros D. discriminate D.
    + apply inv_stop. exact IH.
  - destruct IH as [Hch Hrec]. unfold ondataavailable.
    destruct e as [d |]; [| split; assumption].
    destruct (0 <? size d)%nat eqn:Ed; [| split; assumption].
    split; [| exact Hrec].
    cbn [chunksRef set_chunksRef]. apply Forall_app. split; [exact Hch |].
    constructor; [apply Nat.ltb_lt, Ed | constructor].
  - unfold onstop. destruct (recorderRef st); exact IH.
  - destruct IH as [Hch Hrec]. split; [exact Hch |]. cbn. intros H.
    destruct (Hrec H) as (_ & B & C). repeat split; try assumption.
    intros D. discriminate D.
Qed.

End Reach.

End SessionInvariants.

(** X24.  In every state a component can reach from mount, whatever the
    handlers called, the platform's answers and the recorder's events, the
    chunk buffer holds fragments of non-zero size only. *)
Theorem chunks_never_empty (Math_sin : Q -> Q) (st : Session.state) :
  Session.reachable Math_sin st ->
  Forall (fun d => (0 < Session.size d)%nat) (Session.chunksRef st).
Proof. intros H. apply (SessionInvariants.reachable_inv Math_sin st H). Qed.

Lemma chunks_never_empty_witness :
  Forall (fun d => (0 < Session.size d)%nat)
    (Session.chunksRef
       (Session.ondataavailable (Some (Session.mkBlob [] "video/webm"))
          (Session.ondataavailable
             (Some (Session.mkBlob [Byte.x1a] "video/webm"))
             (Session.final
                (Session.startRecording DEFAULTS Session.platform_ok
                   (Session.mounted (Some Canvas.initial))))))).
Proof.
  apply (chunks_never_empty sin0).
  apply Session.R_data, Session.R_data, Session.R_start, Session.R_mounted.
Defined.

(** X25.  In every reachable state in which the [recording] flag is up, a
    recorder has been created, a frame handle is stored, and no error
    message is displayed. *)
Theorem recording_implies_set_up (Math_sin : Q -> Q) (st : Session.state) :
  Session.reachable Math_sin st ->
  Session.recording st = true ->
  Session.recorderRef st <> None /\
  Session.rafRef st <> None /\
  Session.error st = None.
Proof.
  intros H. apply (SessionInvariants.reachable_inv Math_sin st H).
Qed.

Lemma recording_implies_set_up_witness :
  Session.error
    (Session.final
       (Session.startRecording DEFAULTS Session.platform_ok
          (Session.final
             (Session.startRecording DEFAULTS Session.platform_no_recorder
                (Session.mounted (Some Canvas.initial))))))
  = None.
Proof.
  apply (recording_implies_set_up sin0).
  - apply Session.R_start, Session.R_start, Session.R_mounted.
  - reflexivity.
Defined.

(** ** The size estimate *)

(** X26.  The displayed size estimate is [durationSeconds * 220 / 1024]
    rounded to two decimals: it differs from that value by at most
    [0.005], and it does not decrease when the duration grows. *)
Theorem estimatedSize_accuracy (s s' : Settings) :
  Qabs (estimatedSize s - durationSeconds s * 220 / 1024) <= 0.005 /\
  (durationSeconds s <= durationSeconds s' ->
   estimatedSize s <= estimatedSize s').
Proof.
  unfold estimatedSize. split.
  - set (y := durationSeconds s * 220 / 1024 * 100).
    assert (Ey : durationSeconds s * 220 / 1024 == y / 100)
      by (subst y; field).
    rewrite Ey. unfold Math_round.
    pose proof (Qfloor_le (y + (1 # 2))) as L.
    pose proof (Qlt_floor (y + (1 # 2))) as U.
    rewrite inject_Z_plus in U. change (inject_Z 1) with 1 in U.
    set (r := inject_Z (Qfloor (y + (1 # 2)))) in *. clearbody r y.
    apply Qabs_Qle_condition.
    assert (Eh : / 100 == 1 # 100) by reflexivity.
    unfold Qdiv. rewrite Eh. split; lra.
  - intros H.
    assert (M : (Math_round (durationSeconds s * 220 / 1024 * 100)
                 <= Math_round (durationSeconds s' * 220 / 1024 * 100))%Z).
    { apply ColorMore.Math_round_mono.
      assert (E1 : / 1024 == 1 # 1024) by reflexivity.
      unfold Qdiv. rewrite E1. lra. }
    rewrite Zle_Qle in M.
    assert (Eh : / 100 == 1 # 100) by reflexivity.
    unfold Qdiv at 1 3. rewrite Eh. lra.
Qed.

Lemma estimatedSize_accuracy_witness :
  estimatedSize DEFAULTS == 1.29 /\
  estimatedSize DEFAULTS <= estimatedSize zoom_longer.
Proof.
  split.
  - vm_compute. reflexivity.
  - apply (proj2 (estimatedSize_accuracy DEFAULTS zoom_longer)). discriminate.
Defined.

(** ** The progress bar and the context after a frame *)

Module BarFacts.

Lemma progress_mono (s : Settings) (t1 t2 : Q) :
  0 < durationSeconds s -> t1 <= t2 -> progress s t1 <= progress s t2.
Proof.
  intros Hd Ht. unfold progress. apply clamp_mono.
  unfold Qdiv. apply Qmult_le_compat_r; [exact Ht |].
  apply Qinv_le_0_compat. lra.
Qed.

Lemma Math_floor_mono (x y : Q) : x <= y -> Math_floor x <= Math_floor y.
Proof.
  intros H. unfold Math_floor. rewrite <- Zle_Qle. apply Qfloor_resp_le, H.
Qed.

End BarFacts.

(** X27.  For a positive duration and a frame at least as wide as the
    two margins, the filled part of the progress bar never overflows the
    track: its width lies between [0] and the track width.  It does not
    shrink as time passes, and once the duration has elapsed it is the
    track width rounded down. *)
Theorem filled_within_track (s : Settings) (tMs : Q) :
  0 < durationSeconds s ->
  24 * 2 <= width s ->
  0 <= Math_floor ((width s - 24 * 2) * progress s tMs) <= width s - 24 * 2 /\
  (forall tMs' : Q, tMs <= tMs' ->
     Math_floor ((width s - 24 * 2) * progress s tMs)
     <= Math_floor ((width s - 24 * 2) * progress s tMs')) /\
  (durationSeconds s * 1000 <= tMs ->
   Math_floor ((width s - 24 * 2) * progress s tMs)
   == Math_floor (width s - 24 * 2)).
Proof.
  intros Hd Hw.
  pose proof (PoseFacts.progress_unit s tMs) as [P0 P1].
  assert (Hb : 0 <= width s - 24 * 2) by lra.
  set (bw := width s - 24 * 2) in *. clearbody bw.
  assert (Hx : 0 <= bw * progress s tMs <= bw).
  { split.
    - apply Qmult_le_0_compat; assumption.
    - apply Qle_trans with (bw * 1); [| lra].
      rewrite (Qmult_comm bw (progress s tMs)), (Qmult_comm bw 1).
      apply Qmult_le_compat_r; assumption. }
  split; [split | split].
  - change 0 with (Math_floor 0). apply BarFacts.Math_floor_mono, Hx.
  - apply Qle_trans with (bw * progress s tMs); [apply Qfloor_le | apply Hx].
  - intros t' Ht. apply BarFacts.Math_floor_mono.
    rewrite (Qmult_comm bw (progress s tMs)), (Qmult_comm bw (progress s t')).
    apply Qmult_le_compat_r; [| exact Hb].
    apply BarFacts.progress_mono; assumption.
  - intros Ht. rewrite (PoseFacts.progress_end s tMs Hd Ht).
    unfold Math_floor.
    rewrite (Qfloor_comp (bw * 1) bw) by ring. reflexivity.
Qed.

Lemma filled_within_track_witness :
  0 <= Math_floor ((width DEFAULTS - 24 * 2) * progress DEFAULTS 2500)
    <= width DEFAULTS - 24 * 2 /\
  Math_floor ((width DEFAULTS - 24 * 2) * progress DEFAULTS 6100)
  == Math_floor (width DEFAULTS - 24 * 2).
Proof.
  assert (Hd : 0 < durationSeconds DEFAULTS) by reflexivity.
  assert (Hw : 24 * 2 <= width DEFAULTS) by discriminate.
  split.
  - exact (proj1 (filled_within_track DEFAULTS 2500 Hd Hw)).
  - apply (proj2 (proj2 (filled_within_track DEFAULTS 6100 Hd Hw))).
    discriminate.
Defined.

(** X28.  A frame leaves no trace in the context beyond the attributes it
    assigns outright: the alpha, the transformation and the save/restore
    stack are, after [drawFrame], what they were before it, for every
    animation, the typewriter's early return included. *)
Theorem drawFrame_restores_context (Math_sin : Q -> Q) (s : Settings)
    (tMs : Q) (c : Canvas.ctx) :
  Canvas.globalAlpha (Canvas.cur (drawFrame Math_sin s tMs c))
  = Canvas.globalAlpha (Canvas.cur c) /\
  Canvas.transform (Canvas.cur (drawFrame Math_sin s tMs c))
  = Canvas.transform (Canvas.cur c) /\
  Canvas.stack (drawFrame Math_sin s tMs c) = Canvas.stack c.
Proof.
  destruct (RenderFacts.drawFrame_frame Math_sin s tMs)
    as (G & D & P & HD & HG & _).
  rewrite (HG c). cbn [Canvas.cur Canvas.stack].
  destruct (HD (Canvas.globalAlpha (Canvas.cur c))
              (Canvas.transform (Canvas.cur c))) as [Ha Ht].
  repeat split; assumption.
Qed.

Lemma startRecording_never_stops_witness :
  ~ In Session.RecorderStop
      (Session.effects
         (Session.startRecording DEFAULTS Session.platform_ok
            (Session.final
               (Session.startRecording DEFAULTS Session.platform_ok
                  (Session.mounted (Some Canvas.initial)))))).
Proof.
  exact (proj1 (startRecording_never_stops DEFAULTS Session.platform_ok
                  (Session.final
                     (Session.startRecording DEFAULTS Session.platform_ok
                        (Session.mounted (Some Canvas.initial)))))).
Defined.
